(** * forgeloop_cli: step tracker, GitHub token lookup and rate-limit diagnostics

    A shallow embedding of [src/forgeloop_cli/__init__.py]:
    the [StepTracker] class, [_github_token], [_github_auth_headers],
    [_parse_rate_limit_headers] and [_format_rate_limit_error], together
    with the few pieces of the Python runtime they rely on ([str.strip],
    [int], truthiness, [httpx.Headers], [datetime]).

    Conventions.
    - A Python [str] is a [string] holding its UTF-8 encoding; [chars]
      recovers the sequence of characters.
    - A Python call either returns or raises: [result].
    - A dict is a [gmap] keyed by [string]. *)

From Stdlib Require Import ZArith Ascii String List Lia.
From stdpp Require Import base option list gmap strings pretty.

Local Open Scope Z_scope.

(** ** Python runtime *)

Module Py.

(** Exceptions that the modelled code can meet.  [KeyboardInterrupt],
    [SystemExit] and [GeneratorExit] derive from [BaseException] only;
    everything else derives from [Exception]. *)
Inductive exn : Type :=
| ValueError
| TypeError
| OverflowError
| OSError
| AttributeError
| OtherException (name : string)
| KeyboardInterrupt
| SystemExit
| GeneratorExit.

(** [isinstance(e, Exception)] *)
Definition is_Exception (e : exn) : bool :=
  match e with
  | KeyboardInterrupt | SystemExit | GeneratorExit => false
  | _ => true
  end.

Inductive result (A : Type) : Type :=
| Return (a : A)
| Raise (e : exn).
Arguments Return {A} a.
Arguments Raise {A} e.

(** Truthiness of a [str] and of an optional value ([None] is falsy). *)
Definition truthy (s : string) : bool :=
  match s with EmptyString => false | _ => true end.

Definition truthy_opt (o : option string) : bool :=
  match o with Some s => truthy s | None => false end.

(** [a or b] on values of type [str | None]. *)
Definition or_ (a b : option string) : option string :=
  if truthy_opt a then a else b.

(** *** Characters of a UTF-8 encoded [str] *)

Definition byte (c : ascii) : N := N_of_ascii c.

(** A continuation byte has the form [10xxxxxx]. *)
Definition is_continuation (c : ascii) : bool :=
  ((128 <=? byte c) && (byte c <? 192))%N.

Definition starts_with_continuation (s : string) : bool :=
  match s with
  | String c _ => is_continuation c
  | EmptyString => false
  end.

(** Split an encoded string into characters: each lead byte is grouped
    with the continuation bytes that follow it. *)
Fixpoint chars (s : string) : list string :=
  match s with
  | EmptyString => []
  | String c r =>
      match chars r with
      | x :: xs =>
          if starts_with_continuation x
          then String c x :: xs
          else String c EmptyString :: x :: xs
      | [] => [String c EmptyString]
      end
  end.

Fixpoint join_chars (l : list string) : string :=
  match l with
  | [] => EmptyString
  | x :: xs => x +:+ join_chars xs
  end.

(** The code point of a character (UTF-8 decoding of one character);
    [no_code_point] for a byte group that is not a character. *)
Definition no_code_point : N := 1114112.

Definition code_point (x : string) : N :=
  match map byte (list_ascii_of_string x) with
  | [a] => if (a <? 128)%N then a else no_code_point
  | [a; b] =>
      if ((192 <=? a) && (a <? 224))%N
      then ((a - 192) * 64 + (b - 128))%N else no_code_point
  | [a; b; c] =>
      if ((224 <=? a) && (a <? 240))%N
      then ((a - 224) * 4096 + (b - 128) * 64 + (c - 128))%N
      else no_code_point
  | [a; b; c; d] =>
      if ((240 <=? a) && (a <? 248))%N
      then ((a - 240) * 262144 + (b - 128) * 4096 + (c - 128) * 64
            + (d - 128))%N
      else no_code_point
  | _ => no_code_point
  end.

(** [Py_UNICODE_ISSPACE]: the characters [str.strip()] removes. *)
Definition unicode_isspace (cp : N) : bool :=
  (((9 <=? cp) && (cp <=? 13)) || ((28 <=? cp) && (cp <=? 32))
   || (cp =? 133) || (cp =? 160) || (cp =? 5760)
   || ((8192 <=? cp) && (cp <=? 8202))
   || (cp =? 8232) || (cp =? 8233) || (cp =? 8239) || (cp =? 8287)
   || (cp =? 12288))%N.

Definition isspace (x : string) : bool := unicode_isspace (code_point x).

Fixpoint drop_while {A} (p : A -> bool) (l : list A) : list A :=
  match l with
  | [] => []
  | x :: xs => if p x then drop_while p xs else l
  end.

(** [s.strip()] *)
Definition strip (s : string) : string :=
  join_chars (rev (drop_while isspace (rev (drop_while isspace (chars s))))).

(** [s.isspace()] restricted to what the claims need: every character of
    [s] is whitespace. *)
Definition all_whitespace (s : string) : bool := forallb isspace (chars s).

(** *** [int(s)] for a [str] argument, base 10

    CPython first maps every non-ASCII whitespace character to a blank
    and every non-ASCII decimal digit to its ASCII digit, and then parses
    [blank* [+-]? digit (_? digit)* blank*]
    where a blank is one of the six C [isspace] characters; more than
    [max_str_digits] digits are refused.  Every failure is a
    [ValueError]. *)

(** The code points of the digit zero of every decimal digit system
    (Unicode 14.0, the database of CPython 3.11); the digits one to nine
    follow their zero. *)
Definition decimal_zeros : list N :=
  [48; 1632; 1776; 1984; 2406; 2534; 2662; 2790; 2918; 3046; 3174; 3302;
   3430; 3558; 3664; 3792; 3872; 4160; 4240; 6112; 6160; 6470; 6608; 6784;
   6800; 6992; 7088; 7232; 7248; 42528; 43216; 43264; 43472; 43504; 43600;
   44016; 65296; 66720; 68912; 69734; 69872; 69942; 70096; 70384; 70736;
   70864; 71248; 71360; 71472; 71904; 72016; 72784; 73040; 73120; 92768;
   92864; 93008; 120782; 120792; 120802; 120812; 120822; 123200; 123632;
   125264; 130032]%N.

(** [Py_UNICODE_TODECIMAL] *)
Definition decimal (cp : N) : option Z :=
  match List.find (fun zero => (zero <=? cp) && (cp <? zero + 10))%N decimal_zeros with
  | Some zero => Some (Z.of_N (cp - zero))
  | None => None
  end.

Definition max_str_digits : nat := 4300.

Definition c_isspace (cp : N) : bool :=
  (((9 <=? cp) && (cp <=? 13)) || (cp =? 32))%N.

(** Blank for the integer parser: C blank, or non-ASCII Unicode space. *)
Definition int_blank (x : string) : bool :=
  let cp := code_point x in
  if (cp <? 127)%N then c_isspace cp else unicode_isspace cp.

Definition digit_value (x : string) : option Z := decimal (code_point x).

(** Digits with single underscores between them; [prev_us] tells whether
    the previous character was an underscore, [n] counts the digits. *)
Fixpoint int_digits (prev_us : bool) (acc : Z) (n : nat) (l : list string)
  : option (Z * nat) :=
  match l with
  | [] => if prev_us then None else Some (acc, n)
  | x :: xs =>
      if String.eqb x "_"
      then if prev_us then None else int_digits true acc n xs
      else match digit_value x with
           | Some d => int_digits false (10 * acc + d) (S n) xs
           | None => None
           end
  end.

Definition int_unsigned (l : list string) : option Z :=
  match l with
  | [] => None
  | x :: _ =>
      if String.eqb x "_" then None
      else match int_digits false 0 0%nat l with
           | Some (v, n) => if (max_str_digits <? n)%nat then None else Some v
           | None => None
           end
  end.

Definition int_signed (l : list string) : option Z :=
  match l with
  | x :: xs =>
      if String.eqb x "-" then Z.opp <$> int_unsigned xs
      else if String.eqb x "+" then int_unsigned xs
      else int_unsigned l
  | [] => None
  end.

Definition int (s : string) : result Z :=
  let body := rev (drop_while int_blank (rev (drop_while int_blank (chars s)))) in
  match int_signed body with
  | Some v => Return v
  | None => Raise ValueError
  end.

(** [str(n)] / [f"{n}"] for an [int]. *)
Definition str_of_int (n : Z) : string := pretty n.

End Py.

Import Py.

#[global] Instance result_ret : MRet result := fun _ a => Return a.
#[global] Instance result_bind : MBind result := fun _ _ f m =>
  match m with
  | Return a => f a
  | Raise e => Raise e
  end.

(** ** [datetime] *)

Module Datetime.

(** An aware [datetime]: an instant (seconds since the epoch, UTC) seen
    in a zone with a fixed offset and a name. *)
Record datetime : Type := {
  timestamp : Z;
  utcoffset : Z;
  tzname : string
}.

(** 0001-01-01 00:00:00 and 9999-12-31 23:59:59, as epoch seconds. *)
Definition min_timestamp : Z := -62135596800.
Definition max_timestamp : Z := 253402300799.

Definition representable (t : Z) : bool :=
  (min_timestamp <=? t) && (t <=? max_timestamp).

(** The instants whose year fits the C [int] of [struct tm]: outside,
    [gmtime] fails (64-bit Linux). *)
Definition gmtime_min : Z := -67768040609740800.
Definition gmtime_max : Z := 67768036191676799.

(** [datetime.fromtimestamp(t, tz=timezone.utc)] for an [int]: a value
    outside C [time_t] is an [OverflowError], one [gmtime] refuses an
    [OSError], and any other year outside 1..9999 a [ValueError]. *)
Definition fromtimestamp_utc (t : Z) : result datetime :=
  if (t <? - 2 ^ 63) || (2 ^ 63 <=? t) then Raise OverflowError
  else if (t <? gmtime_min) || (gmtime_max <? t) then Raise OSError
  else if representable t
       then Return {| timestamp := t; utcoffset := 0; tzname := "UTC" |}
       else Raise ValueError.

(** [dt.astimezone()]: the same instant in the local zone.  [localtime]
    gives, for an instant, the local UTC offset in seconds and the zone
    abbreviation; the wall-clock time must stay within years 1..9999. *)
Definition astimezone (localtime : Z -> Z * string) (dt : datetime)
  : result datetime :=
  let '(off, name) := localtime (timestamp dt) in
  if representable (timestamp dt + off)
  then Return {| timestamp := timestamp dt; utcoffset := off; tzname := name |}
  else Raise OverflowError.

(** Civil date of a day number (days since 1970-01-01), proleptic
    Gregorian calendar. *)
Definition civil_from_days (days : Z) : Z * Z * Z :=
  let z := days + 719468 in
  let era := z / 146097 in
  let doe := z - era * 146097 in
  let yoe := (doe - doe / 1460 + doe / 36524 - doe / 146096) / 365 in
  let doy := doe - (365 * yoe + yoe / 4 - yoe / 100) in
  let mp := (5 * doy + 2) / 153 in
  let d := doy - (153 * mp + 2) / 5 + 1 in
  let m := if mp <? 10 then mp + 3 else mp - 9 in
  let y := yoe + era * 400 + (if m <=? 2 then 1 else 0) in
  (y, m, d).

Definition wall_clock (dt : datetime) : Z := timestamp dt + utcoffset dt.

Definition year (dt : datetime) : Z := fst (fst (civil_from_days (wall_clock dt / 86400))).
Definition month (dt : datetime) : Z := snd (fst (civil_from_days (wall_clock dt / 86400))).
Definition day (dt : datetime) : Z := snd (civil_from_days (wall_clock dt / 86400)).
Definition hour (dt : datetime) : Z := (wall_clock dt mod 86400) / 3600.
Definition minute (dt : datetime) : Z := (wall_clock dt mod 3600) / 60.
Definition second (dt : datetime) : Z := wall_clock dt mod 60.

(** Decimal rendering, zero-padded on the left to [width] digits. *)
Fixpoint zeros (n : nat) : string :=
  match n with O => "" | S n => "0" +:+ zeros n end.

Definition pad (width : nat) (n : Z) : string :=
  let s := str_of_int n in
  zeros (width - String.length s) +:+ s.

(** [dt.strftime(fmt)] for the directives [%Y %m %d %H %M %S %Z %%];
    every other character is copied.  [%Y] is the year as the C library
    prints it: without padding (glibc). *)
Definition directive (dt : datetime) (c : ascii) : string :=
  if Ascii.eqb c "Y" then str_of_int (year dt)
  else if Ascii.eqb c "m" then pad 2 (month dt)
  else if Ascii.eqb c "d" then pad 2 (day dt)
  else if Ascii.eqb c "H" then pad 2 (hour dt)
  else if Ascii.eqb c "M" then pad 2 (minute dt)
  else if Ascii.eqb c "S" then pad 2 (second dt)
  else if Ascii.eqb c "Z" then tzname dt
  else if Ascii.eqb c "%" then "%"
  else String "%" (String c EmptyString).

(** [pct] records that the previous character was a pending [%]. *)
Fixpoint strftime_go (dt : datetime) (pct : bool) (fmt : string) : string :=
  match fmt with
  | EmptyString => if pct then "%" else ""
  | String c rest =>
      if pct then directive dt c +:+ strftime_go dt false rest
      else if Ascii.eqb c "%" then strftime_go dt true rest
      else String c (strftime_go dt false rest)
  end.

Definition strftime (dt : datetime) (fmt : string) : string :=
  strftime_go dt false fmt.

(** [str(dt)]: ISO format with a blank separator and the UTC offset. *)
Definition isoformat (dt : datetime) : string :=
  let off := Z.abs (utcoffset dt) in
  pad 4 (year dt) +:+ strftime dt "-%m-%d %H:%M:%S"
    +:+ (if utcoffset dt <? 0 then "-" else "+")
    +:+ pad 2 (off / 3600) +:+ ":" +:+ pad 2 ((off mod 3600) / 60)
    +:+ (if off mod 60 =? 0 then "" else ":" +:+ pad 2 (off mod 60)).

End Datetime.

Import Datetime.

(** ** [httpx.Headers] *)

Module Httpx.

(** ASCII lower-casing, as [bytes.lower()] does on header names. *)
Definition lower_ascii (c : ascii) : ascii :=
  let b := N_of_ascii c in
  if ((65 <=? b) && (b <=? 90))%N then ascii_of_N (b + 32) else c.

Fixpoint lower (s : string) : string :=
  match s with
  | EmptyString => EmptyString
  | String c r => String (lower_ascii c) (lower r)
  end.

(** The multi-dict of response headers: (name, value) pairs in the
    order received; names compare case-insensitively. *)
Definition Headers : Type := list (string * string).

Definition values_of (headers : Headers) (key : string) : list string :=
  map snd (List.filter (fun kv => String.eqb (lower (fst kv)) (lower key)) headers).

(** [key in headers] *)
Definition contains (headers : Headers) (key : string) : bool :=
  existsb (fun kv => String.eqb (lower (fst kv)) (lower key)) headers.

Fixpoint join (sep : string) (l : list string) : string :=
  match l with
  | [] => ""
  | [x] => x
  | x :: xs => x +:+ sep +:+ join sep xs
  end.

(** [headers.get(key, default)]: the values of all fields of that name
    joined with [", "], or [default] when there is none. *)
Definition get (headers : Headers) (key : string) (default : option string)
  : option string :=
  match values_of headers key with
  | [] => default
  | items => Some (join ", " items)
  end.

End Httpx.

Import Httpx.

(** ** [_github_token], [_github_auth_headers] *)

(** [os.getenv(name)] reads the process environment [environ]. *)
Definition getenv (environ : gmap string string) (name : string) : option string :=
  environ !! name.

Definition _github_token (environ : gmap string string) (cli_token : option string)
  : option string :=
  let chosen :=
    or_ (or_ (or_ cli_token (getenv environ "GH_TOKEN"))
             (getenv environ "GITHUB_TOKEN"))
        (Some "") in
  or_ (strip <$> chosen) None.

Definition _github_auth_headers (environ : gmap string string)
    (cli_token : option string) : gmap string string :=
  match _github_token environ cli_token with
  | Some token => if truthy token then {[ "Authorization" := "Bearer " +:+ token ]} else ∅
  | None => ∅
  end.

(** ** [_parse_rate_limit_headers], [_format_rate_limit_error] *)

(** Values stored in the [info] dict. *)
Inductive value : Type :=
| VNone
| VStr (s : string)
| VInt (n : Z)
| VDatetime (d : datetime).

Definition of_optional_str (o : option string) : value :=
  match o with Some s => VStr s | None => VNone end.

(** [int(x)] for [x : str | None]. *)
Definition int_of (o : option string) : result Z :=
  match o with Some s => int s | None => Raise TypeError end.

(** [f"{v}"] *)
Definition format_value (v : value) : string :=
  match v with
  | VNone => "None"
  | VStr s => s
  | VInt n => str_of_int n
  | VDatetime d => isoformat d
  end.

(** [if header in headers: info[field] = headers.get(header)] *)
Definition parse_field (headers : Headers) (header field : string)
    (info : gmap string value) : gmap string value :=
  if contains headers header
  then <[ field := of_optional_str (get headers header None) ]> info
  else info.

(** The line feed of ["\n".join(lines)]. *)
Definition newline : string := String "010" EmptyString.

Section RateLimit.

(** The local time zone of the process: UTC offset (seconds) and zone
    abbreviation in force at a given instant. *)
Variable localtime : Z -> Z * string.

Definition parse_reset (headers : Headers) (info : gmap string value)
  : result (gmap string value) :=
  if contains headers "X-RateLimit-Reset" then
    reset_epoch ← int_of (get headers "X-RateLimit-Reset" (Some "0"));
    if reset_epoch =? 0 then mret info
    else
      reset_time ← fromtimestamp_utc reset_epoch;
      let info := <[ "reset_epoch" := VInt reset_epoch ]> info in
      let info := <[ "reset_time" := VDatetime reset_time ]> info in
      reset_local ← astimezone localtime reset_time;
      mret (<[ "reset_local" := VDatetime reset_local ]> info)
  else mret info.

Definition parse_retry_after (headers : Headers) (info : gmap string value)
  : result (gmap string value) :=
  if contains headers "Retry-After" then
    let retry_after := get headers "Retry-After" None in
    match int_of retry_after with
    | Return n => mret (<[ "retry_after_seconds" := VInt n ]> info)
    | Raise ValueError => mret (<[ "retry_after" := of_optional_str retry_after ]> info)
    | Raise e => Raise e
    end
  else mret info.

Definition _parse_rate_limit_headers (headers : Headers)
  : result (gmap string value) :=
  let info : gmap string value := ∅ in
  let info := parse_field headers "X-RateLimit-Limit" "limit" info in
  let info := parse_field headers "X-RateLimit-Remaining" "remaining" info in
  info ← parse_reset headers info;
  parse_retry_after headers info.

(** [rate_info["reset_local"].strftime(fmt)] *)
Definition value_strftime (v : value) (fmt : string) : result string :=
  match v with
  | VDatetime d => Return (strftime d fmt)
  | _ => Raise AttributeError
  end.

Definition append_if_present (rate_info : gmap string value) (key : string)
    (line : value -> string) (lines : list string) : list string :=
  match rate_info !! key with
  | Some v => lines ++ [line v]
  | None => lines
  end.

Definition tips : list string :=
  [ "[bold]Troubleshooting Tips:[/bold]";
    "  • If you're on a shared CI or corporate environment, you may be rate-limited.";
    "  • Consider using a GitHub token via --github-token or the GH_TOKEN/GITHUB_TOKEN environment variable.";
    "  • Authenticated requests have a limit of 5,000/hour vs 60/hour for unauthenticated." ].

Definition rate_limit_section (rate_info : gmap string value) (lines : list string)
  : result (list string) :=
  if bool_decide (rate_info = ∅) then mret lines
  else
    let lines := lines ++ ["[bold]Rate Limit Information:[/bold]"] in
    let lines := append_if_present rate_info "limit"
      (fun v => "  • Rate Limit: " +:+ format_value v +:+ " requests/hour") lines in
    let lines := append_if_present rate_info "remaining"
      (fun v => "  • Remaining: " +:+ format_value v) lines in
    lines ←
      match rate_info !! "reset_local" with
      | Some v =>
          reset_str ← value_strftime v "%Y-%m-%d %H:%M:%S %Z";
          mret (lines ++ ["  • Resets at: " +:+ reset_str])
      | None => mret lines
      end;
    let lines := append_if_present rate_info "retry_after_seconds"
      (fun v => "  • Retry after: " +:+ format_value v +:+ " seconds") lines in
    mret (lines ++ [""]).

Definition _format_rate_limit_error (status_code : Z) (headers : Headers)
    (url : string) : result string :=
  rate_info ← _parse_rate_limit_headers headers;
  let lines :=
    ["GitHub API returned status " +:+ str_of_int status_code +:+ " for " +:+ url] in
  let lines := lines ++ [""] in
  lines ← rate_limit_section rate_info lines;
  mret (join newline (lines ++ tips)).

End RateLimit.

(** ** [StepTracker] *)

(** One entry of [self.steps]: the dict
    [{"key": .., "label": .., "status": .., "detail": ..}]. *)
Record Step : Type := {
  key : string;
  label : string;
  status : string;
  detail : string
}.

(** A [rich.tree.Tree]: its label, guide style and the labels of the
    children added to it, in order. *)
Record Tree : Type := {
  tree_label : string;
  guide_style : string;
  children : list string
}.

Definition tree_add (tree : Tree) (line : string) : Tree :=
  {| tree_label := tree_label tree;
     guide_style := guide_style tree;
     children := children tree ++ [line] |}.

Section Tracker.

(** Whatever the refresh callback acts on (a live display, a log, ...):
    the tracker does not own it. *)
Context {World : Type}.

(** A refresh callback is a zero-argument hook bound to an external
    renderer: it may read the tracker (title and steps), acts on the
    world, and returns or raises. *)
Definition callback : Type := string -> list Step -> World -> result unit * World.

Record StepTracker : Type := {
  title : string;
  steps : list Step;
  status_order : gmap string Z;
  _refresh_cb : option callback
}.

(** A method runs on the tracker and the world around it. *)
Record state : Type := {
  self : StepTracker;
  world : World
}.

Definition M (A : Type) : Type := state -> result A * state.

#[global] Instance M_ret : MRet M := fun _ a st => (Return a, st).

#[global] Instance M_bind : MBind M := fun _ _ f m st =>
  match m st with
  | (Return a, st') => f a st'
  | (Raise e, st') => (Raise e, st')
  end.

Definition get_steps : M (list Step) := fun st => (Return (steps (self st)), st).

Definition set_steps (l : list Step) : M unit := fun st =>
  (Return tt,
   {| self := {| title := title (self st);
                 steps := l;
                 status_order := status_order (self st);
                 _refresh_cb := _refresh_cb (self st) |};
      world := world st |}).

Definition set_world (w : World) (st : state) : state :=
  {| self := self st; world := w |}.

Definition __init__ (title : string) : StepTracker :=
  {| title := title;
     steps := [];
     status_order :=
       {[ "pending" := 0; "running" := 1; "done" := 2; "error" := 3; "skipped" := 4 ]};
     _refresh_cb := None |}.

Definition attach_refresh (cb : option callback) : M unit := fun st =>
  (Return tt,
   {| self := {| title := title (self st);
                 steps := steps (self st);
                 status_order := status_order (self st);
                 _refresh_cb := cb |};
      world := world st |}).

(** [try: self._refresh_cb() except Exception: pass] *)
Definition _maybe_refresh : M unit := fun st =>
  match _refresh_cb (self st) with
  | Some cb =>
      match cb (title (self st)) (steps (self st)) (world st) with
      | (Return _, w) => (Return tt, set_world w st)
      | (Raise e, w) =>
          if is_Exception e then (Return tt, set_world w st)
          else (Raise e, set_world w st)
      end
  | None => (Return tt, st)
  end.

Definition add (key0 label0 : string) : M unit :=
  l ← get_steps;
  if bool_decide (key0 ∈ key <$> l) then mret tt
  else
    set_steps (l ++ [{| key := key0; label := label0; status := "pending"; detail := "" |}]);;
    _maybe_refresh.

(** The loop of [_update]: the first step with that key gets the status,
    and the detail when it is not empty; [None] when the loop ends without
    a match. *)
Fixpoint update_first (key0 status0 detail0 : string) (l : list Step)
  : option (list Step) :=
  match l with
  | [] => None
  | s :: rest =>
      if String.eqb (key s) key0
      then Some ({| key := key s;
                    label := label s;
                    status := status0;
                    detail := if truthy detail0 then detail0 else detail s |} :: rest)
      else cons s <$> update_first key0 status0 detail0 rest
  end.

Definition _update (key0 status0 detail0 : string) : M unit :=
  l ← get_steps;
  match update_first key0 status0 detail0 l with
  | Some l' => set_steps l';; _maybe_refresh
  | None =>
      set_steps (l ++ [{| key := key0; label := key0; status := status0; detail := detail0 |}]);;
      _maybe_refresh
  end.

Definition start (key0 detail0 : string) : M unit := _update key0 "running" detail0.
Definition complete (key0 detail0 : string) : M unit := _update key0 "done" detail0.
Definition error (key0 detail0 : string) : M unit := _update key0 "error" detail0.
Definition skip (key0 detail0 : string) : M unit := _update key0 "skipped" detail0.

Definition symbol (status0 : string) : string :=
  if String.eqb status0 "done" then "[green]●[/green]"
  else if String.eqb status0 "pending" then "[green dim]○[/green dim]"
  else if String.eqb status0 "running" then "[cyan]○[/cyan]"
  else if String.eqb status0 "error" then "[red]●[/red]"
  else if String.eqb status0 "skipped" then "[yellow]○[/yellow]"
  else " ".

(** The body of the loop of [render]: the line added for one step. *)
Definition step_line (step : Step) : string :=
  let label0 := label step in
  let detail_text := if truthy (detail step) then strip (detail step) else "" in
  let status0 := status step in
  let symbol0 := symbol status0 in
  if String.eqb status0 "pending" then
    if truthy detail_text
    then symbol0 +:+ " [bright_black]" +:+ label0 +:+ " (" +:+ detail_text +:+ ")[/bright_black]"
    else symbol0 +:+ " [bright_black]" +:+ label0 +:+ "[/bright_black]"
  else
    if truthy detail_text
    then symbol0 +:+ " [white]" +:+ label0 +:+ "[/white] [bright_black](" +:+ detail_text
         +:+ ")[/bright_black]"
    else symbol0 +:+ " [white]" +:+ label0 +:+ "[/white]".

Definition render_tree (t : StepTracker) : Tree :=
  fold_left (fun tree step => tree_add tree (step_line step)) (steps t)
    {| tree_label := "[cyan]" +:+ title t +:+ "[/cyan]";
       guide_style := "grey50";
       children := [] |}.

Definition get_self : M StepTracker := fun st => (Return (self st), st).

Definition render : M Tree :=
  t ← get_self;
  mret (render_tree t).

(** The state-changing calls of the public interface. *)
Inductive call : Type :=
| Add (key0 label0 : string)
| Start (key0 detail0 : string)
| Complete (key0 detail0 : string)
| Error (key0 detail0 : string)
| Skip (key0 detail0 : string).

Definition run_call (c : call) : M unit :=
  match c with
  | Add k l => add k l
  | Start k d => start k d
  | Complete k d => complete k d
  | Error k d => error k d
  | Skip k d => skip k d
  end.

(** Everything a client can do with a tracker. *)
Inductive action : Type :=
| Call (c : call)
| AttachRefresh (cb : option callback)
| Render.

Definition run_action (a : action) (st : state) : state :=
  match a with
  | Call c => snd (run_call c st)
  | AttachRefresh cb => snd (attach_refresh cb st)
  | Render => snd (render st)
  end.

(** The states a client can reach from a fresh tracker; a client that
    catches what a call lets through goes on with the state as left. *)
Inductive reachable : state -> Prop :=
| reachable_init (title0 : string) (w : World) :
    reachable {| self := __init__ title0; world := w |}
| reachable_step (a : action) (st : state) :
    reachable st -> reachable (run_action a st)
| reachable_world (w : World) (st : state) :
    reachable st -> reachable (set_world w st).

Definition keys (st : state) : list string := key <$> steps (self st).

(** The tracker with its callback taken away. *)
Definition detach (st : state) : state := snd (attach_refresh None st).

End Tracker.

Arguments StepTracker World : clear implicits.
Arguments state World : clear implicits.
Arguments callback World : clear implicits.

(** ** Vocabulary of the statements *)

(** [sub] occurs in [s]. *)
Definition occurs_in (sub s : string) : Prop :=
  exists before after, s = before +:+ sub +:+ after.

(** [line] is one of the lines of [s] (lines are separated by a line feed). *)
Definition line_of (line s : string) : Prop :=
  exists before after, join newline (before ++ [line] ++ after) = s.

(** The token as the specification words it: the explicit argument, else
    the first environment variable, else the second, else none: a source
    counts when it holds a non-empty string. *)
Definition resolve_by_precedence (environ : gmap string string)
    (explicit_token : option string) : option string :=
  match explicit_token with
  | Some (String _ _ as t) => Some t
  | _ =>
      match environ !! "GH_TOKEN" with
      | Some (String _ _ as t) => Some t
      | _ =>
          match environ !! "GITHUB_TOKEN" with
          | Some (String _ _ as t) => Some t
          | _ => None
          end
      end
  end.

(** The key, the requested status and the detail of a call. *)
Definition call_key (c : call) : string :=
  match c with
  | Add k _ | Start k _ | Complete k _ | Error k _ | Skip k _ => k
  end.

Definition call_status (c : call) : string :=
  match c with
  | Add _ _ => "pending"
  | Start _ _ => "running"
  | Complete _ _ => "done"
  | Error _ _ => "error"
  | Skip _ _ => "skipped"
  end.

Definition call_detail (c : call) : string :=
  match c with
  | Add _ _ => ""
  | Start _ d | Complete _ d | Error _ d | Skip _ d => d
  end.

(** [start], [complete], [error] and [skip], as opposed to [add]. *)
Definition is_transition (c : call) : bool :=
  match c with Add _ _ => false | _ => true end.

(** The fields of the parsed result that come from X-RateLimit-Reset and
    from Retry-After. *)
Definition reset_fields : list string := ["reset_epoch"; "reset_time"; "reset_local"].
Definition retry_fields : list string := ["retry_after_seconds"; "retry_after"].

(** The line a field of the parsed result contributes, if it is set. *)
Definition optional_line (rate_info : gmap string value) (field : string)
    (line : value -> string) : list string :=
  match rate_info !! field with Some v => [line v] | None => [] end.

(** The steps a call leaves behind, whatever the callback does. *)
Definition steps_after (c : call) (l : list Step) : list Step :=
  match c with
  | Add k lbl =>
      if bool_decide (k ∈ key <$> l) then l
      else l ++ [{| key := k; label := lbl; status := "pending"; detail := "" |}]
  | _ =>
      match update_first (call_key c) (call_status c) (call_detail c) l with
      | Some l' => l'
      | None =>
          l ++ [{| key := call_key c; label := call_key c;
                   status := call_status c; detail := call_detail c |}]
      end
  end.

(** The state with another list of steps. *)
Definition with_steps {World : Type} (l : list Step) (st : state World) : state World :=
  snd (set_steps l st).

(** A fresh tracker with a callback attached. *)
Definition fresh_with {World : Type} (cb : callback World) (w : World) : state World :=
  snd (attach_refresh (Some cb) {| self := __init__ "Initialize project"; world := w |}).

(** Three callbacks: one counts its invocations, one fails with an
    [Exception], one is interrupted from the keyboard. *)
Definition counting : callback nat := fun _ _ n => (Return tt, S n).
Definition failing : callback nat := fun _ _ n => (Raise (OtherException "RuntimeError"), S n).
Definition interrupted : callback nat := fun _ _ n => (Raise KeyboardInterrupt, S n).
Definition exiting : callback nat := fun _ _ n => (Raise SystemExit, S n).

(** What a call returns once the callback has run: the callback's
    [Exception]s are dropped, anything else it raises goes through. *)
Definition after_refresh (r : result unit) : result unit :=
  match r with
  | Return _ => Return tt
  | Raise e => if is_Exception e then Return tt else Raise e
  end.

(** The markup [render] puts in front of a step a transition created. *)
Definition transition_mark (c : call) : string :=
  match c with
  | Add _ _ => "[green dim]○[/green dim]"
  | Start _ _ => "[cyan]○[/cyan]"
  | Complete _ _ => "[green]●[/green]"
  | Error _ _ => "[red]●[/red]"
  | Skip _ _ => "[yellow]○[/yellow]"
  end.

(** The characters of a string: each one is a byte followed by
    continuation bytes, and only the first may start with one. *)
Fixpoint all_continuation (s : string) : bool :=
  match s with
  | EmptyString => true
  | String c r => is_continuation c && all_continuation r
  end.

Definition is_char (x : string) : Prop :=
  match x with
  | EmptyString => False
  | String _ t => all_continuation t = true
  end.

Definition chars_ok (l : list string) : Prop :=
  Forall is_char l /\ Forall (fun x => starts_with_continuation x = false) (tail l).

(** The step a transition leaves in place of [s]: same key and label,
    the new status, and the new detail unless that is empty. *)
Definition updated (status0 detail0 : string) (s : Step) : Step :=
  {| key := key s;
     label := label s;
     status := status0;
     detail := if truthy detail0 then detail0 else detail s |}.

(** The statuses the public interface can set. *)
Definition known_statuses : list string :=
  ["pending"; "running"; "done"; "error"; "skipped"].

(** What a call does to the steps when its key is registered, and the
    step it appends when it is not. *)
Definition touch (c : call) (l : list Step) : list Step :=
  match c with
  | Add _ _ => l
  | _ => default l (update_first (call_key c) (call_status c) (call_detail c) l)
  end.

Definition fresh_step (c : call) : Step :=
  match c with
  | Add k lbl => {| key := k; label := lbl; status := "pending"; detail := "" |}
  | _ => {| key := call_key c; label := call_key c;
            status := call_status c; detail := call_detail c |}
  end.

(** The same header fields under other spellings of their names. *)
Definition rename (f : string -> string) (headers : Headers) : Headers :=
  map (fun kv => (f (fst kv), snd kv)) headers.

(** A time zone that is UTC all year. *)
Definition utc_zone (_ : Z) : Z * string := (0, "UTC").

(** ** The runtime model on examples *)

Example strip_examples :
  strip "  ghp_abc  " = "ghp_abc"
  /\ strip (String "009" (String "010" " a b ")) = "a b"
  /\ strip "" = ""
  /\ strip "   " = ""
  /\ chars "a • b" = ["a"; " "; "•"; " "; "b"]
  /\ code_point "•" = 8226%N.
Proof. repeat split. Qed.

Example int_examples :
  int "60" = Return 60
  /\ int " -1_000 " = Return (-1000)
  /\ int "+007" = Return 7
  /\ int "0" = Return 0
  /\ int "" = Raise ValueError
  /\ int "abc" = Raise ValueError
  /\ int "1__0" = Raise ValueError
  /\ int "_1" = Raise ValueError
  /\ int "1_" = Raise ValueError
  /\ int "- 1" = Raise ValueError
  /\ int "12.5" = Raise ValueError
  /\ int "Wed, 21 Oct 2015 07:28:00 GMT" = Raise ValueError.
Proof. repeat split; vm_compute; reflexivity. Qed.

Example int_unicode_examples :
  int "٣" = Return 3
  /\ int "１２０" = Return 120
  /\ int " ٣٠ " = Return 30
  /\ int "-१_०" = Return (-10)
  /\ int "1²" = Raise ValueError
  /\ int "①" = Raise ValueError
  /\ strip (String "028" "5") = "5"
  /\ int (String "028" "5") = Raise ValueError.
Proof. repeat split; vm_compute; reflexivity. Qed.

Example datetime_examples :
  strftime {| timestamp := 2000000000; utcoffset := 0; tzname := "UTC" |}
    "%Y-%m-%d %H:%M:%S %Z" = "2033-05-18 03:33:20 UTC"
  /\ strftime {| timestamp := 0; utcoffset := -18000; tzname := "EST" |}
       "%Y-%m-%d %H:%M:%S %Z" = "1969-12-31 19:00:00 EST"
  /\ strftime {| timestamp := 951782400; utcoffset := 3600; tzname := "CET" |}
       "%Y-%m-%d %H:%M:%S %Z" = "2000-02-29 01:00:00 CET"
  /\ fromtimestamp_utc 253402300800 = Raise ValueError
  /\ fromtimestamp_utc (2 ^ 63) = Raise OverflowError.
Proof. repeat split; vm_compute; reflexivity. Qed.

Example headers_examples :
  let headers := [("x-ratelimit-limit", "60"); ("Retry-After", "30"); ("retry-after", "x")] in
  contains headers "X-RateLimit-Limit" = true
  /\ get headers "X-RateLimit-Limit" None = Some "60"
  /\ get headers "Retry-After" None = Some "30, x"
  /\ contains headers "X-RateLimit-Reset" = false
  /\ get headers "X-RateLimit-Reset" (Some "0") = Some "0".
Proof. repeat split. Qed.

(** ** Strings *)

Lemma truthy_spec (s : string) : truthy s = true <-> s <> "".
Proof. destruct s; simpl; split; congruence. Qed.

Lemma truthy_false (s : string) : truthy s = false <-> s = "".
Proof. destruct s; simpl; split; congruence. Qed.

(** Splitting into characters loses nothing. *)
Lemma join_chars_chars (s : string) : join_chars (chars s) = s.
Proof.
  induction s as [|c r IH]; [reflexivity|].
  simpl. destruct (chars r) as [|x xs]; simpl in *.
  - by rewrite <- IH.
  - destruct (starts_with_continuation x); simpl; by rewrite <- IH.
Qed.

Lemma drop_while_all {A} (p : A -> bool) (l : list A) :
  forallb p l = true -> drop_while p l = [].
Proof.
  induction l as [|x l IH]; simpl; [done|].
  intros [Hx Hl]%andb_prop. rewrite Hx. auto.
Qed.

Lemma strip_all_whitespace (s : string) :
  all_whitespace s = true -> strip s = "".
Proof.
  unfold all_whitespace, strip. intros H.
  by rewrite (drop_while_all _ _ H).
Qed.

(** ** Token resolution *)

Lemma or_Some_nonempty (a : ascii) (s : string) (b : option string) :
  or_ (Some (String a s)) b = Some (String a s).
Proof. reflexivity. Qed.

Lemma or_falsy (a b : option string) :
  truthy_opt a = false -> or_ a b = b.
Proof. unfold or_. by intros ->. Qed.

(** The chain of [or] picks what the specification calls the resolved
    token, or the empty string. *)
Lemma github_token_chain (environ : gmap string string) (cli_token : option string) :
  or_ (or_ (or_ cli_token (getenv environ "GH_TOKEN")) (getenv environ "GITHUB_TOKEN"))
      (Some "")
  = Some (default "" (resolve_by_precedence environ cli_token)).
Proof.
  unfold resolve_by_precedence, getenv.
  destruct cli_token as [[|a s]|]; simpl;
    destruct (environ !! "GH_TOKEN") as [[|b t]|]; simpl;
    destruct (environ !! "GITHUB_TOKEN") as [[|c u]|]; reflexivity.
Qed.

Lemma github_token_spec (environ : gmap string string) (cli_token : option string) :
  _github_token environ cli_token =
    let t := strip (default "" (resolve_by_precedence environ cli_token)) in
    if truthy t then Some t else None.
Proof.
  unfold _github_token. rewrite github_token_chain. simpl.
  unfold or_. simpl. by destruct (truthy _).
Qed.

Lemma github_token_nonempty (environ : gmap string string) (cli_token : option string)
    (t : string) :
  _github_token environ cli_token = Some t -> t <> "".
Proof.
  rewrite github_token_spec. simpl.
  destruct (truthy _) eqn:E; [|done].
  intros [= <-]. by apply truthy_spec.
Qed.

(** C2: [_github_auth_headers] resolves the token by precedence explicit
    argument, then GH_TOKEN, then GITHUB_TOKEN, then none (a source counts
    when it is a non-empty string), strips it, and returns exactly the
    entry [Authorization: Bearer <token>] when the resolved token is not
    empty and an empty dict otherwise.  Explicit ["abc"] wins over any
    environment; no explicit token and an empty environment give no
    entry. *)
Theorem auth_headers_precedence (environ : gmap string string) (cli_token : option string) :
  let token := _github_token environ cli_token in
  token = (let t := strip (default "" (resolve_by_precedence environ cli_token)) in
           if truthy t then Some t else None)
  /\ (forall t, token = Some t -> t <> "")
  /\ _github_auth_headers environ cli_token
     = match token with
       | Some t => {[ "Authorization" := "Bearer " +:+ t ]}
       | None => ∅
       end
  /\ _github_auth_headers environ cli_token !! "Authorization"
     = (fun t => "Bearer " +:+ t) <$> token
  /\ _github_auth_headers environ (Some "abc") = {[ "Authorization" := "Bearer abc" ]}
  /\ _github_auth_headers (<[ "GH_TOKEN" := "xyz" ]> environ) (Some "abc")
     = {[ "Authorization" := "Bearer abc" ]}
  /\ _github_auth_headers (<[ "GITHUB_TOKEN" := "xyz" ]> environ) (Some "abc")
     = {[ "Authorization" := "Bearer abc" ]}
  /\ _github_auth_headers ∅ None = ∅
  /\ _github_auth_headers ∅ None !! "Authorization" = None.
Proof.
  intros token.
  assert (Hnonempty : forall t, token = Some t -> t <> "")
    by (intros t; apply github_token_nonempty).
  assert (Hheaders : _github_auth_headers environ cli_token
     = match token with
       | Some t => {[ "Authorization" := "Bearer " +:+ t ]}
       | None => ∅
       end).
  { unfold _github_auth_headers. fold token.
    destruct token as [t|] eqn:E; [|done].
    specialize (Hnonempty t eq_refl). apply truthy_spec in Hnonempty.
    by rewrite Hnonempty. }
  split; [apply github_token_spec|].
  split; [exact Hnonempty|].
  split; [exact Hheaders|].
  split.
  { rewrite Hheaders. destruct token; simpl.
    - by rewrite lookup_singleton_eq.
    - by rewrite lookup_empty. }
  repeat split; reflexivity.
Qed.

(** C10: a non-empty explicit token made of whitespace only gives no
    Authorization header, whatever GH_TOKEN and GITHUB_TOKEN hold: the
    explicit argument is chosen before it is stripped. *)
Theorem whitespace_token_is_anonymous (environ : gmap string string) (cli_token : string) :
  cli_token <> "" ->
  all_whitespace cli_token = true ->
  _github_token environ (Some cli_token) = None
  /\ _github_auth_headers environ (Some cli_token) = ∅
  /\ _github_auth_headers environ (Some cli_token) !! "Authorization" = None.
Proof.
  intros Hne Hws.
  assert (Htok : _github_token environ (Some cli_token) = None).
  { rewrite github_token_spec.
    destruct cli_token as [|a s]; [done|]. simpl.
    by rewrite (strip_all_whitespace _ Hws). }
  unfold _github_auth_headers. rewrite Htok. done.
Qed.

Lemma whitespace_token_is_anonymous_witness :
  _github_token {[ "GH_TOKEN" := "xyz"; "GITHUB_TOKEN" := "uvw" ]} (Some "  ") = None
  /\ _github_auth_headers {[ "GH_TOKEN" := "xyz"; "GITHUB_TOKEN" := "uvw" ]} (Some "  ") = ∅
  /\ _github_auth_headers {[ "GH_TOKEN" := "xyz"; "GITHUB_TOKEN" := "uvw" ]} (Some "  ")
       !! "Authorization" = None.
Proof.
  apply (whitespace_token_is_anonymous
           {[ "GH_TOKEN" := "xyz"; "GITHUB_TOKEN" := "uvw" ]} "  ").
  - discriminate.
  - reflexivity.
Defined.

(** ** Headers *)

Lemma contains_values_of (headers : Headers) (k : string) :
  contains headers k = false <-> values_of headers k = [].
Proof.
  unfold contains, values_of.
  induction headers as [|[k' v] hs IH]; simpl; [done|].
  destruct (String.eqb (lower k') (lower k)) eqn:E; simpl; [done|exact IH].
Qed.

Lemma get_absent (headers : Headers) (k : string) (d : option string) :
  contains headers k = false -> get headers k d = d.
Proof. intros H%contains_values_of. unfold get. by rewrite H. Qed.

Lemma get_present (headers : Headers) (k : string) :
  contains headers k = true ->
  forall d, get headers k d = Some (join ", " (values_of headers k)).
Proof.
  intros H d. unfold get.
  destruct (values_of headers k) eqn:E; [|done].
  apply contains_values_of in E. congruence.
Qed.

Lemma get_None_absent (headers : Headers) (k : string) :
  get headers k None = None <-> contains headers k = false.
Proof.
  split; [|apply get_absent].
  destruct (contains headers k) eqn:E; [|done].
  by rewrite (get_present _ _ E).
Qed.

Lemma get_default_irrelevant (headers : Headers) (k v : string) (d : option string) :
  get headers k None = Some v -> get headers k d = Some v.
Proof.
  destruct (contains headers k) eqn:E.
  - by rewrite !(get_present _ _ E).
  - by rewrite (get_absent _ _ _ E).
Qed.

(** ** [int] *)

Lemma int_total (s : string) :
  (exists n, int s = Return n) \/ int s = Raise ValueError.
Proof. unfold int. destruct (int_signed _); eauto. Qed.

(** ** Parsing the rate-limit headers *)

Section RateLimitFacts.

Variable localtime : Z -> Z * string.

(** What [parse_reset] adds to the dict. *)
Lemma parse_reset_spec (headers : Headers) (info info' : gmap string value) :
  parse_reset localtime headers info = Return info' ->
  (info' = info
   /\ (contains headers "X-RateLimit-Reset" = false
       \/ int_of (get headers "X-RateLimit-Reset" (Some "0")) = Return 0))
  \/ (exists e utc local,
        contains headers "X-RateLimit-Reset" = true
        /\ int_of (get headers "X-RateLimit-Reset" (Some "0")) = Return e
        /\ e <> 0
        /\ fromtimestamp_utc e = Return utc
        /\ astimezone localtime utc = Return local
        /\ info' = <[ "reset_local" := VDatetime local ]>
                     (<[ "reset_time" := VDatetime utc ]>
                        (<[ "reset_epoch" := VInt e ]> info))).
Proof.
  unfold parse_reset.
  destruct (contains headers "X-RateLimit-Reset") eqn:Hc; simpl.
  2: { intros [= <-]. left. auto. }
  destruct (int_of _) as [e|?] eqn:Hint; simpl; [|done].
  destruct (e =? 0) eqn:He.
  { apply Z.eqb_eq in He as ->. intros [= <-]. left. auto. }
  apply Z.eqb_neq in He.
  destruct (fromtimestamp_utc e) as [utc|?] eqn:Hutc; simpl; [|done].
  destruct (astimezone localtime utc) as [local|?] eqn:Hloc; simpl; [|done].
  intros [= <-]. right. exists e, utc, local. done.
Qed.

(** What [parse_retry_after] adds to the dict; it never raises. *)
Lemma parse_retry_after_spec (headers : Headers) (info : gmap string value) :
  (contains headers "Retry-After" = false
   /\ parse_retry_after headers info = Return info)
  \/ (exists raw n,
        contains headers "Retry-After" = true
        /\ get headers "Retry-After" None = Some raw
        /\ int raw = Return n
        /\ parse_retry_after headers info
           = Return (<[ "retry_after_seconds" := VInt n ]> info))
  \/ (exists raw,
        contains headers "Retry-After" = true
        /\ get headers "Retry-After" None = Some raw
        /\ int raw = Raise ValueError
        /\ parse_retry_after headers info
           = Return (<[ "retry_after" := VStr raw ]> info)).
Proof.
  unfold parse_retry_after.
  destruct (contains headers "Retry-After") eqn:Hc; [|left; done].
  right. rewrite (get_present _ _ Hc). simpl.
  set (raw := join ", " _).
  destruct (int_total raw) as [[n Hn]|Hn]; rewrite Hn.
  - left. exists raw, n. done.
  - right. exists raw. done.
Qed.

End RateLimitFacts.

Section RateLimitClaims.

Variable localtime : Z -> Z * string.

Local Ltac solve_lookup :=
  repeat (rewrite lookup_insert_ne by discriminate);
  try rewrite lookup_insert_eq; try rewrite lookup_empty; try done.

(** A reset value that [int] refuses makes the parse, and with it the
    diagnostic, raise: nothing guards that conversion. *)
Lemma unparsable_reset_propagates (headers : Headers) (e : exn) :
  contains headers "X-RateLimit-Reset" = true ->
  int_of (get headers "X-RateLimit-Reset" (Some "0")) = Raise e ->
  _parse_rate_limit_headers localtime headers = Raise e
  /\ forall status_code url,
       _format_rate_limit_error localtime status_code headers url = Raise e.
Proof.
  intros Hc Hint.
  assert (H : _parse_rate_limit_headers localtime headers = Raise e).
  { unfold _parse_rate_limit_headers, parse_reset. rewrite Hc, Hint. done. }
  split; [done|]. intros. unfold _format_rate_limit_error. by rewrite H.
Qed.

(** C1 (the code departs from the claim): with [X-RateLimit-Reset: abc]
    both [_parse_rate_limit_headers] and [_format_rate_limit_error] raise
    [ValueError], and with an epoch beyond the calendar they raise too,
    whereas the same text in [Retry-After] falls back to the raw string. *)
Theorem non_numeric_reset_raises :
  _parse_rate_limit_headers localtime [("X-RateLimit-Reset", "abc")] = Raise ValueError
  /\ _format_rate_limit_error localtime 403 [("X-RateLimit-Reset", "abc")]
       "https://api.github.com/repos/o/r/releases/latest" = Raise ValueError
  /\ _parse_rate_limit_headers localtime [("X-RateLimit-Reset", "999999999999")]
     = Raise ValueError
  /\ _parse_rate_limit_headers localtime [("Retry-After", "abc")]
     = Return {[ "retry_after" := VStr "abc" ]}.
Proof. repeat split; vm_compute; reflexivity. Qed.

Lemma parse_field_ne (headers : Headers) (header field k : string)
    (info : gmap string value) :
  k <> field -> parse_field headers header field info !! k = info !! k.
Proof.
  intros Hk. unfold parse_field.
  destruct (contains headers header); [|done]. by rewrite lookup_insert_ne.
Qed.

Lemma parse_field_eq (headers : Headers) (header field : string)
    (info : gmap string value) :
  info !! field = None ->
  parse_field headers header field info !! field = VStr <$> get headers header None.
Proof.
  intros Hnone. unfold parse_field.
  destruct (contains headers header) eqn:Hc.
  - by rewrite (get_present _ _ Hc), lookup_insert_eq.
  - by rewrite (get_absent _ _ _ Hc).
Qed.

(** Membership in a list of field names, decided by cases. *)
Local Ltac field_cases H :=
  unfold reset_fields, retry_fields in H; simpl in H;
  repeat (apply elem_of_cons in H as [H|H];
          [first [discriminate H | subst | clear H]|]);
  try (by apply elem_of_nil in H).

Local Ltac not_field :=
  unfold reset_fields, retry_fields;
  rewrite !not_elem_of_cons; repeat split; try discriminate; apply not_elem_of_nil.

Local Ltac is_field :=
  unfold reset_fields, retry_fields; simpl; by repeat constructor.

Lemma parse_reset_frame (headers : Headers) (info info' : gmap string value) (k : string) :
  parse_reset localtime headers info = Return info' ->
  k ∉ reset_fields -> info' !! k = info !! k.
Proof.
  intros [(-> & _)|(e & utc & local & _ & _ & _ & _ & _ & ->)]%parse_reset_spec Hk;
    [done|].
  unfold reset_fields in Hk. rewrite !not_elem_of_cons in Hk.
  destruct Hk as (? & ? & ? & _).
  by rewrite !lookup_insert_ne.
Qed.

Lemma parse_reset_fields (headers : Headers) (info info' : gmap string value) (k : string) :
  parse_reset localtime headers info = Return info' ->
  (forall k', k' ∈ reset_fields -> info !! k' = None) ->
  k ∈ reset_fields -> is_Some (info' !! k) ->
  contains headers "X-RateLimit-Reset" = true
  /\ exists e, int_of (get headers "X-RateLimit-Reset" (Some "0")) = Return e
               /\ e <> 0 /\ info' !! "reset_epoch" = Some (VInt e).
Proof.
  intros [(-> & _)|(e & utc & local & Hc & Hint & He & _ & _ & ->)]%parse_reset_spec
    Hnone Hk His.
  - rewrite (Hnone _ Hk) in His. by destruct His.
  - split; [done|]. exists e. repeat split; [done..|]. solve_lookup.
Qed.

Lemma parse_retry_after_frame (headers : Headers) (info : gmap string value) :
  exists info',
    parse_retry_after headers info = Return info'
    /\ (forall k, k ∉ retry_fields -> info' !! k = info !! k)
    /\ ((forall k, k ∈ retry_fields -> info !! k = None) ->
        (is_Some (info' !! "retry_after_seconds") \/ is_Some (info' !! "retry_after"))
        <-> contains headers "Retry-After" = true).
Proof.
  assert (Hne : forall k (v : value), k ∉ retry_fields ->
            (<[ "retry_after_seconds" := v ]> info !! k = info !! k)
            /\ (<[ "retry_after" := v ]> info !! k = info !! k)).
  { intros k v Hk. unfold retry_fields in Hk. rewrite !not_elem_of_cons in Hk.
    destruct Hk as (? & ? & _). by rewrite !lookup_insert_ne. }
  destruct (parse_retry_after_spec headers info)
    as [(Hc & ->)|[(raw & n & Hc & _ & _ & ->)|(raw & Hc & _ & _ & ->)]];
    eexists; (split; [reflexivity|]); split.
  - done.
  - intros Hnone. rewrite !Hnone by is_field. rewrite Hc.
    split; [intros [[? [=]]|[? [=]]]|done].
  - intros k Hk. by apply Hne.
  - intros _. rewrite Hc, lookup_insert_eq. split; eauto.
  - intros k Hk. by apply Hne.
  - intros _. rewrite Hc, lookup_insert_eq. split; eauto.
Qed.

Lemma parse_retry_after_dom (headers : Headers) (info info' : gmap string value)
    (k : string) :
  parse_retry_after headers info = Return info' ->
  is_Some (info' !! k) -> k ∈ retry_fields \/ is_Some (info !! k).
Proof.
  destruct (decide (k ∈ retry_fields)) as [|Hk]; [by left|].
  destruct (parse_retry_after_frame headers info) as (i & -> & Hframe & _).
  intros [= <-]. rewrite (Hframe _ Hk). by right.
Qed.

Lemma parse_reset_dom (headers : Headers) (info info' : gmap string value)
    (k : string) :
  parse_reset localtime headers info = Return info' ->
  is_Some (info' !! k) -> k ∈ reset_fields \/ is_Some (info !! k).
Proof.
  destruct (decide (k ∈ reset_fields)) as [|Hk]; [by left|].
  intros H. rewrite (parse_reset_frame _ _ _ _ H Hk). by right.
Qed.

Lemma parse_field_dom (headers : Headers) (header field k : string)
    (info : gmap string value) :
  is_Some (parse_field headers header field info !! k) ->
  k = field \/ is_Some (info !! k).
Proof.
  destruct (decide (k = field)) as [|Hk]; [by left|].
  rewrite parse_field_ne by done. by right.
Qed.

(** C6: in a parsed result every field comes from its header.  [limit] and
    [remaining] hold the header's text and are absent when the header is;
    the reset fields appear only with an X-RateLimit-Reset header whose
    value is a non-zero integer; the retry-after fields appear exactly
    with a Retry-After header; there is no other field.  A reset header
    reading [0] gives a result without any reset field. *)
Theorem parsed_fields_from_headers (headers : Headers) :
  (forall info, _parse_rate_limit_headers localtime headers = Return info ->
     info !! "limit" = VStr <$> get headers "X-RateLimit-Limit" None
     /\ info !! "remaining" = VStr <$> get headers "X-RateLimit-Remaining" None
     /\ (forall k, k ∈ reset_fields -> is_Some (info !! k) ->
           contains headers "X-RateLimit-Reset" = true
           /\ exists e, int_of (get headers "X-RateLimit-Reset" (Some "0")) = Return e
                        /\ e <> 0 /\ info !! "reset_epoch" = Some (VInt e))
     /\ ((is_Some (info !! "retry_after_seconds") \/ is_Some (info !! "retry_after"))
         <-> contains headers "Retry-After" = true)
     /\ (forall k, is_Some (info !! k) ->
           k ∈ ["limit"; "remaining"] ++ reset_fields ++ retry_fields))
  /\ (forall k, get headers k None = None <-> contains headers k = false)
  /\ (get headers "X-RateLimit-Reset" None = Some "0" ->
      exists info, _parse_rate_limit_headers localtime headers = Return info
                   /\ forall k, k ∈ reset_fields -> info !! k = None).
Proof.
  split; [|split; [apply get_None_absent|]].
  - intros info. unfold _parse_rate_limit_headers.
    set (i1 := parse_field headers "X-RateLimit-Limit" "limit" ∅).
    set (i2 := parse_field headers "X-RateLimit-Remaining" "remaining" i1).
    destruct (parse_reset localtime headers i2) as [i3|?] eqn:Hreset; simpl; [|done].
    destruct (parse_retry_after_frame headers i3) as (i4 & Hretry & Hframe & Hiff).
    rewrite Hretry. intros [= <-].
    assert (Hbase : forall k, is_Some (i2 !! k) -> k ∈ ["limit"; "remaining"]).
    { intros k [->|[->|His]%parse_field_dom]%parse_field_dom; [is_field..|].
      rewrite lookup_empty in His. by apply is_Some_None in His. }
    assert (Hfresh : forall k, k ∈ reset_fields ++ retry_fields -> i2 !! k = None).
    { intros k Hk. apply eq_None_not_Some. intros His%Hbase.
      field_cases Hk; field_cases His. }
    split; [|split; [|split; [intros k Hk His|split; [|intros k His]]]].
    + rewrite Hframe by not_field.
      rewrite (parse_reset_frame _ _ _ _ Hreset) by not_field.
      subst i2. rewrite parse_field_ne by done. by apply parse_field_eq.
    + rewrite Hframe by not_field.
      rewrite (parse_reset_frame _ _ _ _ Hreset) by not_field.
      apply parse_field_eq. subst i1. by rewrite parse_field_ne.
    + assert (Hk' : k ∉ retry_fields) by (field_cases Hk; not_field).
      rewrite (Hframe _ Hk') in His.
      destruct (parse_reset_fields _ _ _ k Hreset)
        as (Hc & e & He1 & He2 & He3); [|done..|].
      { intros k' Hk'2. apply Hfresh. field_cases Hk'2; is_field. }
      split; [done|]. exists e. repeat split; [done..|].
      by rewrite Hframe by not_field.
    + apply Hiff. intros k Hk.
      assert (Hk' : k ∉ reset_fields) by (field_cases Hk; not_field).
      rewrite (parse_reset_frame _ _ _ _ Hreset Hk').
      apply Hfresh. field_cases Hk; is_field.
    + apply (parse_retry_after_dom _ _ _ _ Hretry) in His as [Hk|His].
      { field_cases Hk; is_field. }
      apply (parse_reset_dom _ _ _ _ Hreset) in His as [Hk|His%Hbase].
      { field_cases Hk; is_field. }
      field_cases His; is_field.
  - intros Hget.
    assert (Hc : contains headers "X-RateLimit-Reset" = true).
    { destruct (contains _ _) eqn:E; [done|].
      apply get_None_absent in E. congruence. }
    unfold _parse_rate_limit_headers.
    set (i1 := parse_field headers "X-RateLimit-Limit" "limit" ∅).
    set (i2 := parse_field headers "X-RateLimit-Remaining" "remaining" i1).
    assert (Hreset : parse_reset localtime headers i2 = Return i2).
    { unfold parse_reset. by rewrite Hc, (get_default_irrelevant _ _ _ _ Hget). }
    rewrite Hreset. simpl.
    destruct (parse_retry_after_frame headers i2) as (i4 & -> & Hframe & _).
    exists i4. split; [done|]. intros k Hk.
    assert (Hk' : k ∉ retry_fields) by (field_cases Hk; not_field).
    rewrite (Hframe _ Hk').
    subst i2 i1. rewrite !parse_field_ne by (field_cases Hk; discriminate).
    apply lookup_empty.
Qed.

(** ** The diagnostic *)

Lemma append_cons (a : ascii) (s t : string) : String a s +:+ t = String a (s +:+ t).
Proof. reflexivity. Qed.

Lemma append_assoc (s t u : string) : (s +:+ t) +:+ u = s +:+ (t +:+ u).
Proof.
  induction s as [|a s IH]; [reflexivity|].
  by rewrite !append_cons, IH.
Qed.

Lemma append_nil_r (s : string) : s +:+ "" = s.
Proof. induction s as [|a s IH]; [reflexivity|]. by rewrite append_cons, IH. Qed.

Lemma join_cons (sep x y : string) (l : list string) :
  join sep (x :: y :: l) = x +:+ sep +:+ join sep (y :: l).
Proof. reflexivity. Qed.

Lemma join_app (sep : string) (l1 l2 : list string) :
  l1 <> [] -> l2 <> [] ->
  join sep (l1 ++ l2) = join sep l1 +:+ sep +:+ join sep l2.
Proof.
  intros H1 H2. induction l1 as [|x [|y l1] IH]; [congruence| |].
  - destruct l2; [congruence|]. reflexivity.
  - change ((x :: y :: l1) ++ l2) with (x :: y :: (l1 ++ l2)).
    rewrite !join_cons.
    change (y :: l1 ++ l2) with ((y :: l1) ++ l2).
    rewrite IH by done. by rewrite !append_assoc.
Qed.

Lemma occurs_in_line (line s : string) : line_of line s -> occurs_in line s.
Proof.
  intros (before & after & <-).
  destruct before as [|b0 before], after as [|a0 after].
  - exists "", "". by rewrite append_nil_r.
  - exists "", (newline +:+ join newline (a0 :: after)). reflexivity.
  - rewrite join_app by discriminate.
    exists (join newline (b0 :: before) +:+ newline), "".
    by rewrite append_assoc, append_nil_r.
  - rewrite join_app by discriminate.
    change ([line] ++ a0 :: after) with (line :: a0 :: after).
    rewrite join_cons.
    exists (join newline (b0 :: before) +:+ newline),
      (newline +:+ join newline (a0 :: after)).
    by rewrite !append_assoc.
Qed.

Lemma line_of_intro (line : string) (before after : list string) :
  line_of line (join newline (before ++ line :: after)).
Proof. by exists before, after. Qed.

(** The section of the message that reports the parsed facts. *)
Lemma rate_limit_section_empty (lines : list string) :
  rate_limit_section ∅ lines = Return lines.
Proof. reflexivity. Qed.

Lemma append_if_present_spec (rate_info : gmap string value) (field : string)
    (line : value -> string) (lines : list string) :
  append_if_present rate_info field line lines
  = lines ++ optional_line rate_info field line.
Proof.
  unfold append_if_present, optional_line.
  destruct (rate_info !! field); [done|]. by rewrite app_nil_r.
Qed.

Lemma optional_line_Some (rate_info : gmap string value) (field : string)
    (line : value -> string) (v : value) :
  rate_info !! field = Some v -> optional_line rate_info field line = [line v].
Proof. unfold optional_line. by intros ->. Qed.

Lemma optional_line_None (rate_info : gmap string value) (field : string)
    (line : value -> string) :
  rate_info !! field = None -> optional_line rate_info field line = [].
Proof. unfold optional_line. by intros ->. Qed.

Lemma rate_limit_section_ok (rate_info : gmap string value) (lines : list string) :
  rate_info <> ∅ ->
  (forall v, rate_info !! "reset_local" = Some v -> exists d, v = VDatetime d) ->
  rate_limit_section rate_info lines
  = Return (lines ++ ["[bold]Rate Limit Information:[/bold]"]
      ++ optional_line rate_info "limit"
           (fun v => "  • Rate Limit: " +:+ format_value v +:+ " requests/hour")
      ++ optional_line rate_info "remaining"
           (fun v => "  • Remaining: " +:+ format_value v)
      ++ optional_line rate_info "reset_local"
           (fun v => "  • Resets at: " +:+
              match v with
              | VDatetime d => strftime d "%Y-%m-%d %H:%M:%S %Z"
              | _ => ""
              end)
      ++ optional_line rate_info "retry_after_seconds"
           (fun v => "  • Retry after: " +:+ format_value v +:+ " seconds")
      ++ [""]).
Proof.
  intros Hne Hdt. unfold rate_limit_section.
  rewrite bool_decide_eq_false_2 by done.
  rewrite !append_if_present_spec.
  destruct (rate_info !! "reset_local") as [v|] eqn:E; simpl.
  - destruct (Hdt v eq_refl) as [d ->]. simpl.
    rewrite append_if_present_spec, (optional_line_Some _ _ _ _ E).
    unfold mret, result_ret. by rewrite <- !app_assoc.
  - rewrite append_if_present_spec, (optional_line_None _ _ _ E).
    unfold mret, result_ret. by rewrite <- !app_assoc.
Qed.


Lemma rate_limit_section_extends (rate_info : gmap string value)
    (lines lines' : list string) :
  rate_limit_section rate_info lines = Return lines' ->
  exists extra, lines' = lines ++ extra.
Proof.
  unfold rate_limit_section. case_bool_decide.
  { intros [= <-]. exists []. by rewrite app_nil_r. }
  rewrite !append_if_present_spec.
  destruct (rate_info !! "reset_local") as [v|]; simpl.
  - destruct (value_strftime v _); simpl; [|done].
    rewrite append_if_present_spec. intros [= <-].
    eexists. by rewrite <- !app_assoc.
  - rewrite append_if_present_spec. intros [= <-].
    eexists. by rewrite <- !app_assoc.
Qed.

(** The parsed result when the reset header holds a usable epoch. *)
Lemma parse_with_reset (headers : Headers) (raw : string) (e : Z) :
  get headers "X-RateLimit-Reset" None = Some raw ->
  int raw = Return e ->
  e <> 0 ->
  representable e = true ->
  representable (e + fst (localtime e)) = true ->
  exists info,
    _parse_rate_limit_headers localtime headers = Return info
    /\ info !! "remaining" = VStr <$> get headers "X-RateLimit-Remaining" None
    /\ info !! "reset_local"
       = Some (VDatetime {| timestamp := e;
                            utcoffset := fst (localtime e);
                            tzname := snd (localtime e) |}).
Proof.
  intros Hget Hint He Hrep Hloc.
  assert (Hc : contains headers "X-RateLimit-Reset" = true).
  { destruct (contains _ _) eqn:E; [done|].
    apply get_None_absent in E. congruence. }
  unfold _parse_rate_limit_headers.
  set (i1 := parse_field headers "X-RateLimit-Limit" "limit" ∅).
  set (i2 := parse_field headers "X-RateLimit-Remaining" "remaining" i1).
  assert (Hutc : fromtimestamp_utc e
                 = Return {| timestamp := e; utcoffset := 0; tzname := "UTC" |}).
  { unfold fromtimestamp_utc. rewrite Hrep.
    unfold representable, min_timestamp, max_timestamp in Hrep.
    apply andb_prop in Hrep as [H1%Z.leb_le H2%Z.leb_le].
    replace ((e <? - 2 ^ 63) || (2 ^ 63 <=? e)) with false
      by (symmetry; apply orb_false_intro; [apply Z.ltb_ge|apply Z.leb_gt]; lia).
    replace ((e <? gmtime_min) || (gmtime_max <? e)) with false
      by (symmetry; apply orb_false_intro; apply Z.ltb_ge;
          unfold gmtime_min, gmtime_max; lia).
    done. }
  assert (Hreset : exists i3, parse_reset localtime headers i2 = Return i3).
  { unfold parse_reset.
    rewrite Hc, (get_default_irrelevant _ _ _ _ Hget). simpl.
    rewrite Hint. simpl. rewrite (proj2 (Z.eqb_neq e 0) He), Hutc. simpl.
    unfold astimezone. simpl. destruct (localtime e) as [off name]. simpl in *.
    rewrite Hloc. simpl. eauto. }
  destruct Hreset as [i3 Hreset]. rewrite Hreset. simpl.
  destruct (parse_retry_after_frame headers i3) as (i4 & -> & Hframe & _).
  exists i4. split; [done|].
  rewrite !Hframe by not_field.
  split.
  - rewrite (parse_reset_frame _ _ _ _ Hreset) by not_field.
    apply parse_field_eq. subst i1. by rewrite parse_field_ne.
  - apply parse_reset_spec in Hreset
      as [(-> & [Hz|Hz])|(e' & utc & local & _ & He' & _ & Hutc' & Hloc' & ->)].
    + congruence.
    + rewrite (get_default_irrelevant _ _ _ _ Hget) in Hz. simpl in Hz. congruence.
    + rewrite (get_default_irrelevant _ _ _ _ Hget) in He'. simpl in He'.
      assert (e' = e) as -> by congruence.
      rewrite Hutc in Hutc'. injection Hutc' as <-.
      unfold astimezone in Hloc'. simpl in Hloc'.
      destruct (localtime e) as [off name]. simpl in *.
      rewrite Hloc in Hloc'. injection Hloc' as <-.
      by rewrite lookup_insert_eq.
Qed.

Lemma parse_without_headers (headers : Headers) :
  contains headers "X-RateLimit-Limit" = false ->
  contains headers "X-RateLimit-Remaining" = false ->
  contains headers "X-RateLimit-Reset" = false ->
  contains headers "Retry-After" = false ->
  _parse_rate_limit_headers localtime headers = Return ∅.
Proof.
  intros H1 H2 H3 H4.
  unfold _parse_rate_limit_headers, parse_field, parse_reset, parse_retry_after.
  by rewrite H1, H2, H3, H4.
Qed.

(** X19: whenever [_format_rate_limit_error] produces a message, its first
    line is ["GitHub API returned status <code> for <url>"], so the message
    holds the status code and the URL as written; without any rate-limit
    header the message is that line, a blank line and the tips, with no
    rate-limit section.  When the headers carry [remaining = 0] and a
    reset epoch in the future (one the calendar can represent, also in
    the local zone), the message is produced and has the lines
    ["  • Remaining: 0"] and ["  • Resets at: <local time>"]. *)
Theorem diagnostic_contents (status_code : Z) (headers : Headers) (url : string) :
  let first_line :=
    "GitHub API returned status " +:+ str_of_int status_code +:+ " for " +:+ url in
  (forall msg, _format_rate_limit_error localtime status_code headers url = Return msg ->
     (exists rest, msg = first_line +:+ newline +:+ rest)
     /\ occurs_in (str_of_int status_code) msg
     /\ occurs_in url msg)
  /\ (contains headers "X-RateLimit-Limit" = false ->
      contains headers "X-RateLimit-Remaining" = false ->
      contains headers "X-RateLimit-Reset" = false ->
      contains headers "Retry-After" = false ->
      _format_rate_limit_error localtime status_code headers url
      = Return (join newline ([first_line; ""] ++ tips)))
  /\ (forall (now : Z) (raw : string) (e : Z),
        get headers "X-RateLimit-Remaining" None = Some "0" ->
        get headers "X-RateLimit-Reset" None = Some raw ->
        int raw = Return e ->
        0 <= now < e ->
        representable e = true ->
        representable (e + fst (localtime e)) = true ->
        exists msg,
          _format_rate_limit_error localtime status_code headers url = Return msg
          /\ line_of "  • Remaining: 0" msg
          /\ line_of ("  • Resets at: " +:+
                      strftime {| timestamp := e;
                                  utcoffset := fst (localtime e);
                                  tzname := snd (localtime e) |}
                               "%Y-%m-%d %H:%M:%S %Z") msg).
Proof.
  intros first_line. split; [|split].
  - intros msg. unfold _format_rate_limit_error.
    destruct (_parse_rate_limit_headers localtime headers) as [info|]; simpl; [|done].
    fold first_line.
    destruct (rate_limit_section info _) as [lines|] eqn:Hsec; simpl; [|done].
    apply rate_limit_section_extends in Hsec as [extra ->].
    unfold mret, result_ret. intros Heq.
    assert (Hmsg : msg = first_line +:+ newline +:+ join newline ("" :: extra ++ tips)).
    { injection Heq as <-. reflexivity. }
    clear Heq. subst msg. split; [eauto|]. split.
    + exists "GitHub API returned status ",
        (" for " +:+ url +:+ newline +:+ join newline ("" :: extra ++ tips)).
      subst first_line. by rewrite !append_assoc.
    + exists ("GitHub API returned status " +:+ str_of_int status_code +:+ " for "),
        (newline +:+ join newline ("" :: extra ++ tips)).
      subst first_line. by rewrite !append_assoc.
  - intros H1 H2 H3 H4. unfold _format_rate_limit_error.
    by rewrite (parse_without_headers _ H1 H2 H3 H4).
  - intros now raw e Hrem Hreset Hint Hnow Hrep Hloc.
    destruct (parse_with_reset headers raw e) as (info & Hparse & Hr & Hl);
      [done|done|lia|done|done|].
    rewrite Hrem in Hr. simpl in Hr.
    unfold _format_rate_limit_error. rewrite Hparse. simpl. fold first_line.
    rewrite rate_limit_section_ok.
    2: { intros ->. by rewrite lookup_empty in Hr. }
    2: { intros v. rewrite Hl. intros [= <-]. eauto. }
    rewrite (optional_line_Some _ _ _ _ Hr), (optional_line_Some _ _ _ _ Hl).
    set (limit_line := optional_line info "limit" _).
    set (retry_line := optional_line info "retry_after_seconds" _).
    set (reset_line := "  • Resets at: " +:+ _).
    eexists. split; [reflexivity|]. split.
    + exists ([first_line; ""; "[bold]Rate Limit Information:[/bold]"] ++ limit_line),
        ([reset_line] ++ retry_line ++ [""] ++ tips).
      apply (f_equal (join newline)).
      rewrite <- !app_assoc. reflexivity.
    + exists ([first_line; ""; "[bold]Rate Limit Information:[/bold]"] ++ limit_line
              ++ ["  • Remaining: 0"]),
        (retry_line ++ [""] ++ tips).
      apply (f_equal (join newline)).
      rewrite <- !app_assoc. reflexivity.
Qed.

End RateLimitClaims.

Lemma diagnostic_contents_witness :
  exists msg,
    _format_rate_limit_error utc_zone 403
      [("X-RateLimit-Remaining", "0"); ("X-RateLimit-Reset", "2000000000")]
      "https://api.github.com/repos/o/r/releases/latest" = Return msg
    /\ line_of "  • Remaining: 0" msg
    /\ line_of "  • Resets at: 2033-05-18 03:33:20 UTC" msg.
Proof.
  apply (proj2 (proj2 (diagnostic_contents utc_zone 403
           [("X-RateLimit-Remaining", "0"); ("X-RateLimit-Reset", "2000000000")]
           "https://api.github.com/repos/o/r/releases/latest"))
         1762000000 "2000000000" 2000000000).
  - reflexivity.
  - reflexivity.
  - vm_compute. reflexivity.
  - lia.
  - reflexivity.
  - reflexivity.
Defined.

(** C7 (the code departs from the claim): with [remaining = 0] and a
    reset epoch in the future that the calendar cannot hold (beyond the
    year 9999: [999999999999], or an epoch given in milliseconds such as
    [1893456000000]), [_format_rate_limit_error] produces no message at
    all: the conversion of the epoch raises and nothing guards it, in
    any time zone.  With an epoch the calendar holds the two lines are
    there. *)
Theorem future_reset_beyond_calendar_raises (localtime : Z -> Z * string) :
  _format_rate_limit_error localtime 403
    [("X-RateLimit-Remaining", "0"); ("X-RateLimit-Reset", "999999999999")]
    "https://api.github.com/repos/o/r/releases/latest" = Raise ValueError
  /\ _format_rate_limit_error localtime 403
       [("X-RateLimit-Remaining", "0"); ("X-RateLimit-Reset", "1893456000000")]
       "https://api.github.com/repos/o/r/releases/latest" = Raise ValueError
  /\ int "999999999999" = Return 999999999999
  /\ fromtimestamp_utc 999999999999 = Raise ValueError
  /\ exists msg,
       _format_rate_limit_error utc_zone 403
         [("X-RateLimit-Remaining", "0"); ("X-RateLimit-Reset", "2000000000")]
         "https://api.github.com/repos/o/r/releases/latest" = Return msg
       /\ line_of "  • Remaining: 0" msg
       /\ line_of "  • Resets at: 2033-05-18 03:33:20 UTC" msg.
Proof.
  split; [vm_compute; reflexivity|]. split; [vm_compute; reflexivity|].
  split; [vm_compute; reflexivity|]. split; [vm_compute; reflexivity|].
  eexists. split; [vm_compute; reflexivity|]. split.
  - exists ["GitHub API returned status 403 for https://api.github.com/repos/o/r/releases/latest";
            ""; "[bold]Rate Limit Information:[/bold]"],
      (["  • Resets at: 2033-05-18 03:33:20 UTC"; ""] ++ tips).
    vm_compute. reflexivity.
  - exists ["GitHub API returned status 403 for https://api.github.com/repos/o/r/releases/latest";
            ""; "[bold]Rate Limit Information:[/bold]"; "  • Remaining: 0"],
      ([""] ++ tips).
    vm_compute. reflexivity.
Qed.

(** ** The step tracker *)

Section TrackerFacts.

Context {World : Type}.

Implicit Types (st : state World) (c : call) (cb : callback World).

Lemma children_fold (l : list Step) (tree : Tree) :
  children (fold_left (fun tree step => tree_add tree (step_line step)) l tree)
  = children tree ++ (step_line <$> l).
Proof.
  revert tree. induction l as [|s l IH]; intros tree; simpl.
  - by rewrite app_nil_r.
  - rewrite IH. simpl. by rewrite <- app_assoc.
Qed.

(** [render] adds one line per step, in the order of the steps. *)
Lemma children_render_tree (t : StepTracker World) :
  children (render_tree t) = step_line <$> steps t.
Proof. unfold render_tree. by rewrite children_fold. Qed.

(** The loop of [_update] finds a step exactly when the key is known, and
    then keeps every key in place. *)
Lemma update_first_None (k s d : string) (l : list Step) :
  update_first k s d l = None <-> k ∉ key <$> l.
Proof.
  induction l as [|x l IH]; simpl.
  - split; [intros _; apply not_elem_of_nil|done].
  - destruct (String.eqb (key x) k) eqn:E.
    + apply String.eqb_eq in E. split; [done|].
      intros H. exfalso. apply H. rewrite E. left.
    + apply String.eqb_neq in E. rewrite not_elem_of_cons.
      destruct (update_first k s d l); simpl.
      * split; [done|]. intros [_ H]. by apply IH in H.
      * split; [|done]. intros _. split; [congruence|]. by apply IH.
Qed.

Lemma update_first_keys (k s d : string) (l l' : list Step) :
  update_first k s d l = Some l' -> key <$> l' = key <$> l.
Proof.
  revert l'. induction l as [|x l IH]; intros l'; simpl; [done|].
  destruct (String.eqb (key x) k).
  - by intros [= <-].
  - destruct (update_first k s d l) as [l0|]; simpl; [|done].
    intros [= <-]. rewrite !fmap_cons. by rewrite (IH l0).
Qed.

(** The refresh leaves the tracker itself alone. *)
Lemma maybe_refresh_self st : self (snd (_maybe_refresh st)) = self st.
Proof.
  unfold _maybe_refresh.
  destruct (_refresh_cb (self st)) as [cb|]; [|done].
  destruct (cb _ _ _) as [[[]|e] w]; [done|].
  by destruct (is_Exception e).
Qed.

(** What lets [_maybe_refresh] raise: a callback raising something that
    is not an [Exception]. *)
Lemma maybe_refresh_result st :
  match _refresh_cb (self st) with
  | None => _maybe_refresh st = (Return tt, st)
  | Some cb =>
      let '(r, w) := cb (title (self st)) (steps (self st)) (world st) in
      _maybe_refresh st
      = (match r with
         | Return _ => Return tt
         | Raise e => if is_Exception e then Return tt else Raise e
         end, set_world w st)
  end.
Proof.
  unfold _maybe_refresh.
  destruct (_refresh_cb (self st)) as [cb|]; [|done].
  destruct (cb _ _ _) as [[[]|e] w]; [done|].
  by destruct (is_Exception e).
Qed.

Lemma update_unfold (k s d : string) st :
  _update k s d st
  = _maybe_refresh
      (with_steps
         (match update_first k s d (steps (self st)) with
          | Some l' => l'
          | None => steps (self st) ++ [{| key := k; label := k; status := s; detail := d |}]
          end) st).
Proof.
  unfold _update, mbind, M_bind, get_steps. simpl.
  by destruct (update_first k s d (steps (self st))).
Qed.

Lemma add_unfold (k lbl : string) st :
  add k lbl st
  = if bool_decide (k ∈ key <$> steps (self st)) then (Return tt, st)
    else _maybe_refresh
           (with_steps (steps (self st)
              ++ [{| key := k; label := lbl; status := "pending"; detail := "" |}]) st).
Proof.
  unfold add, mbind, M_bind, get_steps. simpl.
  by destruct (bool_decide _).
Qed.

(** A call either does nothing at all (an [add] of a known key) or
    installs [steps_after] and refreshes. *)
Lemma run_call_unfold c st :
  run_call c st
  = match c with
    | Add k _ =>
        if bool_decide (k ∈ key <$> steps (self st)) then (Return tt, st)
        else _maybe_refresh (with_steps (steps_after c (steps (self st))) st)
    | _ => _maybe_refresh (with_steps (steps_after c (steps (self st))) st)
    end.
Proof.
  destruct c as [k l|k d|k d|k d|k d]; simpl;
    unfold start, complete, error, skip; rewrite ?update_unfold, ?add_unfold;
    try done.
  by destruct (bool_decide _).
Qed.

Lemma run_call_self c st :
  self (snd (run_call c st))
  = {| title := title (self st);
       steps := steps_after c (steps (self st));
       status_order := status_order (self st);
       _refresh_cb := _refresh_cb (self st) |}.
Proof.
  rewrite run_call_unfold.
  destruct c as [k l|k d|k d|k d|k d]; rewrite ?maybe_refresh_self; try done.
  simpl. destruct (bool_decide _); [|by rewrite maybe_refresh_self].
  simpl. by destruct st as [[] ?].
Qed.

Lemma steps_after_keys c (l : list Step) :
  key <$> steps_after c l
  = if bool_decide (call_key c ∈ key <$> l) then key <$> l
    else (key <$> l) ++ [call_key c].
Proof.
  assert (Hupd : forall k s d,
            key <$> match update_first k s d l with
                    | Some l' => l'
                    | None => l ++ [{| key := k; label := k; status := s; detail := d |}]
                    end
            = if bool_decide (k ∈ key <$> l) then key <$> l else (key <$> l) ++ [k]).
  { intros k s d. destruct (update_first k s d l) as [l'|] eqn:E.
    - rewrite (update_first_keys _ _ _ _ _ E).
      case_bool_decide as Hk; [done|].
      apply (update_first_None k s d) in Hk. congruence.
    - apply update_first_None in E.
      rewrite bool_decide_eq_false_2 by done. by rewrite fmap_app. }
  destruct c as [k lbl|k d|k d|k d|k d]; simpl; [|apply Hupd..].
  destruct (bool_decide _); [done|]. by rewrite fmap_app.
Qed.


Lemma keys_run_call c st :
  keys (snd (run_call c st))
  = if bool_decide (call_key c ∈ keys st) then keys st else keys st ++ [call_key c].
Proof. unfold keys. by rewrite run_call_self, <- steps_after_keys. Qed.

Lemma keys_run_action (a : action) st :
  keys (run_action a st)
  = match a with
    | Call c =>
        if bool_decide (call_key c ∈ keys st) then keys st else keys st ++ [call_key c]
    | _ => keys st
    end.
Proof. destruct a as [c|cb|]; [apply keys_run_call|done..]. Qed.

Lemma reachable_NoDup st : reachable st -> NoDup (keys st).
Proof.
  induction 1 as [title0 w|a st _ IH|w st _ IH]; [apply NoDup_nil_2| |done].
  rewrite keys_run_action. destruct a as [c|cb|]; [|done..].
  case_bool_decide as Hk; [done|].
  apply NoDup_app. split; [done|]. split; [|apply NoDup_singleton].
  intros k Hin ->%list_elem_of_singleton. done.
Qed.

(** C3: in every state a client can reach, no key is held by two steps.
    A key once added stays registered through every later action, and
    [add] on a registered key changes nothing at all: the steps, their
    order, their statuses and details are as before, and [render] shows
    one line per step, so exactly one line for that key. *)
Theorem tracker_keys_unique st :
  reachable st ->
  NoDup (keys st)
  /\ (forall k lbl, k ∈ keys (snd (add k lbl st)))
  /\ (forall (a : action) k, k ∈ keys st -> k ∈ keys (run_action a st))
  /\ (forall k lbl, k ∈ keys st ->
        add k lbl st = (Return tt, st)
        /\ length (children (render_tree (self st))) = length (steps (self st))
        /\ exists i s,
             steps (self st) !! i = Some s /\ key s = k
             /\ children (render_tree (self st)) !! i = Some (step_line s)
             /\ forall j s', steps (self st) !! j = Some s' -> key s' = k -> j = i).
Proof.
  intros Hreach. pose proof (reachable_NoDup _ Hreach) as Hnodup.
  split; [done|]. split; [|split].
  - intros k lbl. change (add k lbl st) with (run_call (Add k lbl) st).
    rewrite keys_run_call. simpl. case_bool_decide; [done|].
    apply elem_of_app. right. by apply list_elem_of_singleton.
  - intros a k Hk. rewrite keys_run_action.
    destruct a as [c|cb|]; [|done..].
    case_bool_decide; [done|]. apply elem_of_app. by left.
  - intros k lbl Hk. split; [|split].
    + rewrite add_unfold. by rewrite bool_decide_eq_true_2.
    + by rewrite children_render_tree, length_fmap.
    + unfold keys in Hk, Hnodup.
      apply list_elem_of_lookup in Hk as [i Hi].
      apply list_lookup_fmap_Some in Hi as (s & -> & Hs).
      exists i, s. split; [done|]. split; [done|]. split.
      * by rewrite children_render_tree, list_lookup_fmap, Hs.
      * intros j s' Hj Hkey.
        apply (NoDup_lookup _ j i (key s) Hnodup);
          rewrite list_lookup_fmap; [rewrite Hj|rewrite Hs]; simpl; congruence.
Qed.

(** The line [render] shows for a step created by a transition. *)
Lemma step_line_transition c :
  is_transition c = true ->
  step_line {| key := call_key c; label := call_key c;
               status := call_status c; detail := call_detail c |}
  = if truthy (strip (call_detail c))
    then symbol (call_status c) +:+ " [white]" +:+ call_key c
         +:+ "[/white] [bright_black](" +:+ strip (call_detail c) +:+ ")[/bright_black]"
    else symbol (call_status c) +:+ " [white]" +:+ call_key c +:+ "[/white]".
Proof.
  destruct c as [k lbl|k d|k d|k d|k d]; [done|..]; intros _;
    unfold step_line; simpl;
    (destruct d as [|a d]; [reflexivity|]); reflexivity.
Qed.

(** What a call returns: [None] unless the callback gets in the way. *)
Lemma run_call_result c st :
  (_refresh_cb (self st) = None -> fst (run_call c st) = Return tt)
  /\ (forall e, fst (run_call c st) = Raise e ->
        is_Exception e = false
        /\ exists cb w,
             _refresh_cb (self st) = Some cb
             /\ cb (title (self st)) (steps_after c (steps (self st))) (world st)
                = (Raise e, w)).
Proof.
  rewrite run_call_unfold.
  set (st' := with_steps (steps_after c (steps (self st))) st).
  assert (Hrefresh :
    (_refresh_cb (self st) = None -> fst (_maybe_refresh st') = Return tt)
    /\ (forall e, fst (_maybe_refresh st') = Raise e ->
          is_Exception e = false
          /\ exists cb w,
               _refresh_cb (self st) = Some cb
               /\ cb (title (self st)) (steps_after c (steps (self st))) (world st)
                  = (Raise e, w))).
  { pose proof (maybe_refresh_result st') as H. subst st'. simpl in H.
    destruct (_refresh_cb (self st)) as [cb|].
    - split; [done|]. intros e.
      destruct (cb _ _ _) as [[[]|e'] w] eqn:Hcb; rewrite H; simpl; [done|].
      destruct (is_Exception e') eqn:He'; [done|].
      intros [= <-]. split; [done|]. eauto.
    - rewrite H. split; [done|]. done. }
  destruct c as [k lbl|k d|k d|k d|k d]; try exact Hrefresh.
  destruct (bool_decide _); [|exact Hrefresh].
  split; [done|]. done.
Qed.

Lemma transition_mark_symbol c : symbol (call_status c) = transition_mark c.
Proof. by destruct c. Qed.

(** What a call that refreshes returns, and the world it leaves. *)
Lemma run_call_outcome c cb st :
  _refresh_cb (self st) = Some cb ->
  is_transition c = true \/ call_key c ∉ keys st ->
  fst (run_call c st)
  = after_refresh (fst (cb (title (self st)) (steps_after c (steps (self st))) (world st)))
  /\ world (snd (run_call c st))
     = snd (cb (title (self st)) (steps_after c (steps (self st))) (world st)).
Proof.
  intros Hcb Hrefresh.
  assert (Hrun : run_call c st
                 = _maybe_refresh (with_steps (steps_after c (steps (self st))) st)).
  { rewrite run_call_unfold. destruct c as [k lbl|k d|k d|k d|k d]; try done.
    destruct Hrefresh as [Ht|Hk]; [done|]. unfold keys in Hk. simpl in Hk.
    by rewrite bool_decide_eq_false_2. }
  rewrite Hrun.
  pose proof (maybe_refresh_result
                (with_steps (steps_after c (steps (self st))) st)) as H.
  simpl in H. rewrite Hcb in H.
  destruct (cb _ _ _) as [[[]|e] w]; rewrite H; simpl; [done|].
  by destruct (is_Exception e).
Qed.

(** C4 as the code has it: a transition on a key the tracker does not
    know appends a step whose label is the key, with the requested status
    and the given detail; [render] then ends with the line of that step:
    the markup of that status ([cyan]○ running, [green]● done, [red]●
    error, [yellow]○ skipped), the key, and the stripped detail if any.
    With no callback attached the call returns.  With one attached the
    callback runs on the steps with the new one, and the call returns
    unless the callback raises outside [Exception]: that goes through to
    the caller, the step being there all the same. *)
Theorem transition_creates_unknown_step c st :
  is_transition c = true ->
  call_key c ∉ keys st ->
  let new_step := {| key := call_key c; label := call_key c;
                     status := call_status c; detail := call_detail c |} in
  let st' := snd (run_call c st) in
  steps (self st') = steps (self st) ++ [new_step]
  /\ children (render_tree (self st'))
     = children (render_tree (self st)) ++ [step_line new_step]
  /\ step_line new_step
     = (if truthy (strip (call_detail c))
        then transition_mark c +:+ " [white]" +:+ call_key c
             +:+ "[/white] [bright_black](" +:+ strip (call_detail c)
             +:+ ")[/bright_black]"
        else transition_mark c +:+ " [white]" +:+ call_key c +:+ "[/white]")
  /\ (forall k d, c = Start k d -> new_step = {| key := k; label := k; status := "running"; detail := d |})
  /\ (forall k d, c = Complete k d -> new_step = {| key := k; label := k; status := "done"; detail := d |})
  /\ (forall k d, c = Error k d -> new_step = {| key := k; label := k; status := "error"; detail := d |})
  /\ (forall k d, c = Skip k d -> new_step = {| key := k; label := k; status := "skipped"; detail := d |})
  /\ (_refresh_cb (self st) = None ->
      fst (run_call c st) = Return tt /\ world st' = world st)
  /\ (forall cb, _refresh_cb (self st) = Some cb ->
        fst (run_call c st)
        = after_refresh
            (fst (cb (title (self st)) (steps (self st) ++ [new_step]) (world st)))
        /\ world st'
           = snd (cb (title (self st)) (steps (self st) ++ [new_step]) (world st))).
Proof.
  intros Htrans Hkey new_step st'.
  assert (Hafter : steps_after c (steps (self st)) = steps (self st) ++ [new_step]).
  { unfold keys in Hkey.
    destruct c as [k lbl|k d|k d|k d|k d]; [done|..]; simpl in *;
      by rewrite (proj2 (update_first_None _ _ _ _) Hkey). }
  assert (Hsteps : steps (self st') = steps (self st) ++ [new_step]).
  { subst st'. by rewrite run_call_self. }
  split; [done|]. split.
  { rewrite !children_render_tree, Hsteps. by rewrite fmap_app. }
  split.
  { rewrite <- transition_mark_symbol. by apply step_line_transition. }
  split; [by intros k d ->|]. split; [by intros k d ->|].
  split; [by intros k d ->|]. split; [by intros k d ->|].
  split.
  - intros Hnone. split; [by apply run_call_result|].
    subst st'. rewrite run_call_unfold.
    pose proof (maybe_refresh_result
                  (with_steps (steps_after c (steps (self st))) st)) as H.
    simpl in H. rewrite Hnone in H.
    destruct c; [done|..]; by rewrite H.
  - intros cb Hcb. rewrite <- Hafter. apply run_call_outcome; auto.
Qed.

(** C5 as the code has it: with a callback attached, any state-changing
    call leaves the tracker exactly as the same call leaves a tracker
    without callback (the callback apart), whatever the callback does.
    A call that refreshes (every call but an [add] of a registered key)
    runs the callback on the updated steps; when the callback returns or
    raises an [Exception] the call returns normally, and when it raises
    anything else (KeyboardInterrupt, SystemExit, GeneratorExit) the call
    raises that very exception.  An [add] of a registered key returns at
    once. *)
Theorem callback_failure_contained cb c st :
  _refresh_cb (self st) = Some cb ->
  let st' := snd (run_call c st) in
  let outcome := cb (title (self st)) (steps (self st')) (world st) in
  steps (self st') = steps (self (snd (run_call c (detach st))))
  /\ title (self st') = title (self st)
  /\ _refresh_cb (self st') = Some cb
  /\ (forall e w, outcome = (Raise e, w) -> is_Exception e = true ->
        fst (run_call c st) = Return tt)
  /\ (forall e, fst (run_call c st) = Raise e ->
        is_Exception e = false /\ exists w, outcome = (Raise e, w))
  /\ (is_transition c = true \/ call_key c ∉ keys st ->
      fst (run_call c st) = after_refresh (fst outcome)
      /\ world st' = snd outcome
      /\ (forall e w, outcome = (Raise e, w) -> is_Exception e = false ->
            fst (run_call c st) = Raise e))
  /\ (is_transition c = false -> call_key c ∈ keys st ->
      run_call c st = (Return tt, st)).
Proof.
  intros Hcb st' outcome.
  assert (Hsteps : steps (self st') = steps_after c (steps (self st))).
  { subst st'. by rewrite run_call_self. }
  assert (Hraise : forall e, fst (run_call c st) = Raise e ->
            is_Exception e = false /\ exists w, outcome = (Raise e, w)).
  { intros e He. apply run_call_result in He as (Hex & cb' & w & Hcb' & Hrun).
    split; [done|]. exists w. subst outcome. rewrite Hsteps. congruence. }
  split; [by rewrite Hsteps, run_call_self|].
  split; [subst st'; by rewrite run_call_self|].
  split; [subst st'; by rewrite run_call_self|].
  split; [|split; [done|split]].
  - intros e w Hrun Hex.
    destruct (fst (run_call c st)) as [[]|e'] eqn:Hres; [done|].
    destruct (Hraise e' eq_refl) as (Hex' & w' & Hrun').
    congruence.
  - intros Hrefresh.
    destruct (run_call_outcome c cb st Hcb Hrefresh) as [Hres Hworld].
    subst outcome. rewrite Hsteps.
    split; [done|]. split; [done|].
    intros e w Hout Hex. rewrite Hres, Hout. simpl. by rewrite Hex.
  - intros Htrans Hk. destruct c as [k lbl|k d|k d|k d|k d]; try done.
    simpl. rewrite add_unfold. by rewrite bool_decide_eq_true_2.
Qed.

(** C8 as the code has it: [add] with a new key appends a step in
    [pending] status with an empty detail and then refreshes, the callback
    seeing the step already added; [add] with a registered key returns at
    once: no change and no refresh. *)
Theorem add_refreshes_only_new_keys k lbl st :
  let new_step := {| key := k; label := lbl; status := "pending"; detail := "" |} in
  (k ∉ keys st ->
     steps (self (snd (add k lbl st))) = steps (self st) ++ [new_step]
     /\ add k lbl st = _maybe_refresh (with_steps (steps (self st) ++ [new_step]) st)
     /\ (forall cb, _refresh_cb (self st) = Some cb ->
           world (snd (add k lbl st))
           = snd (cb (title (self st)) (steps (self st) ++ [new_step]) (world st))))
  /\ (k ∈ keys st -> add k lbl st = (Return tt, st)).
Proof.
  intros new_step. split.
  - intros Hk. unfold keys in Hk.
    assert (Hadd : add k lbl st
              = _maybe_refresh (with_steps (steps (self st) ++ [new_step]) st)).
    { rewrite add_unfold. by rewrite bool_decide_eq_false_2. }
    split; [|split; [done|]].
    + by rewrite Hadd, maybe_refresh_self.
    + intros cb Hcb. rewrite Hadd.
      pose proof (maybe_refresh_result
                    (with_steps (steps (self st) ++ [new_step]) st)) as H.
      simpl in H. rewrite Hcb in H.
      destruct (cb _ _ _) as [r w]. by rewrite H.
  - intros Hk. rewrite add_unfold. by rewrite bool_decide_eq_true_2.
Qed.

(** C9: [render] returns the tree of the current steps and leaves the
    state as it found it: title, steps and callback are untouched, and
    two calls in a row, or any number of them, return the same tree. *)
Theorem render_is_pure st :
  render st = (Return (render_tree (self st)), st)
  /\ snd (render st) = st
  /\ (t1 ← render; t2 ← render; mret (t1, t2)) st
     = (Return (render_tree (self st), render_tree (self st)), st)
  /\ (forall n, Nat.iter n (fun s => snd (render s)) st = st)
  /\ (forall n, fst (render (Nat.iter n (fun s => snd (render s)) st))
                = fst (render st)).
Proof.
  assert (Hiter : forall n, Nat.iter n (fun s => snd (render s)) st = st).
  { induction n as [|n IH]; [done|]. by rewrite Nat.iter_succ, IH. }
  repeat split; try done.
  intros n. by rewrite Hiter.
Qed.

End TrackerFacts.

(** ** The claims at concrete inputs *)

Lemma tracker_keys_unique_witness :
  let st := run_action (Call (Add "fetch" "Fetch again"))
              (run_action (Call (Complete "fetch" "done in 2s"))
                 (run_action (Call (Add "fetch" "Fetch template"))
                    (fresh_with counting 0%nat))) in
  NoDup (keys st)
  /\ keys st = ["fetch"]
  /\ status <$> steps (self st) = ["done"]
  /\ add "fetch" "Fetch again" st = (Return tt, st).
Proof.
  intros st.
  assert (Hreach : reachable st).
  { subst st. do 3 apply reachable_step.
    apply (reachable_step (AttachRefresh (Some counting))).
    apply reachable_init. }
  destruct (tracker_keys_unique st Hreach) as (Hnodup & _ & _ & Hadd).
  split; [exact Hnodup|]. split; [reflexivity|]. split; [reflexivity|].
  apply (Hadd "fetch" "Fetch again"). vm_compute. constructor.
Defined.

Lemma transition_creates_unknown_step_witness :
  let st := fresh_with counting 0%nat in
  let st' := snd (run_call (Start "fetch" " downloading ") st) in
  steps (self st')
  = [{| key := "fetch"; label := "fetch"; status := "running"; detail := " downloading " |}]
  /\ children (render_tree (self st'))
     = ["[cyan]○[/cyan] [white]fetch[/white] [bright_black](downloading)[/bright_black]"]
  /\ fst (run_call (Start "fetch" " downloading ") st) = Return tt
  /\ world st' = 1%nat.
Proof.
  intros st st'.
  destruct (transition_creates_unknown_step (Start "fetch" " downloading ") st)
    as (Hsteps & Hchildren & Hline & _ & _ & _ & _ & _ & Hcb).
  - reflexivity.
  - vm_compute. apply not_elem_of_nil.
  - split; [exact Hsteps|]. split.
    + subst st'. rewrite Hchildren, Hline. reflexivity.
    + exact (Hcb counting eq_refl).
Defined.

Lemma callback_failure_contained_witness :
  let st := fresh_with failing 0%nat in
  let st' := snd (run_call (Start "fetch" "") st) in
  steps (self st')
  = [{| key := "fetch"; label := "fetch"; status := "running"; detail := "" |}]
  /\ fst (run_call (Start "fetch" "") st) = Return tt
  /\ fst (run_call (Start "fetch" "") (fresh_with interrupted 0%nat))
     = Raise KeyboardInterrupt.
Proof.
  intros st st'.
  destruct (callback_failure_contained failing (Start "fetch" "") st eq_refl)
    as (Hsteps & _ & _ & Hswallow & _).
  split; [exact Hsteps|]. split.
  - apply (Hswallow (OtherException "RuntimeError") 1%nat); reflexivity.
  - destruct (callback_failure_contained interrupted (Start "fetch" "")
                (fresh_with interrupted 0%nat) eq_refl)
      as (_ & _ & _ & _ & _ & Hrefresh & _).
    destruct Hrefresh as (_ & _ & Hthrough); [by left|].
    apply (Hthrough KeyboardInterrupt 1%nat); reflexivity.
Defined.

(** C4 as stated fails: with a callback that exits the interpreter,
    [complete] on an unknown key raises [SystemExit]; the step has been
    created and [render] shows it. *)
Lemma unknown_key_transition_can_raise :
  let st := fresh_with exiting 0%nat in
  ("extract" ∈ keys st -> False)
  /\ fst (complete "extract" "" st) = Raise SystemExit
  /\ steps (self (snd (complete "extract" "" st)))
     = [{| key := "extract"; label := "extract"; status := "done"; detail := "" |}]
  /\ children (render_tree (self (snd (complete "extract" "" st))))
     = ["[green]●[/green] [white]extract[/white]"].
Proof.
  split; [|repeat split]. vm_compute. intros H. by apply elem_of_nil in H.
Qed.

(** C5 as stated fails: a callback interrupted from the keyboard makes
    [start] raise [KeyboardInterrupt]; the step is there all the same. *)
Lemma interrupted_callback_propagates :
  fst (start "fetch" "" (fresh_with interrupted 0%nat)) = Raise KeyboardInterrupt
  /\ is_Exception KeyboardInterrupt = false
  /\ steps (self (snd (start "fetch" "" (fresh_with interrupted 0%nat))))
     = [{| key := "fetch"; label := "fetch"; status := "running"; detail := "" |}].
Proof. repeat split. Qed.

(** C8 as stated fails: the callback has run once after the first [add]
    and has still run once after a second [add] of the same key. *)
Lemma duplicate_add_does_not_refresh :
  let st1 := snd (add "fetch" "Fetch template" (fresh_with counting 0%nat)) in
  world st1 = 1%nat
  /\ add "fetch" "Fetch template" st1 = (Return tt, st1)
  /\ world (snd (add "fetch" "Fetch template" st1)) = 1%nat
  /\ world (snd (add "extract" "Extract" st1)) = 2%nat.
Proof. repeat split. Qed.

Lemma add_refreshes_only_new_keys_witness :
  let st := fresh_with counting 0%nat in
  steps (self (snd (add "fetch" "Fetch template" st)))
  = [{| key := "fetch"; label := "Fetch template"; status := "pending"; detail := "" |}]
  /\ world (snd (add "fetch" "Fetch template" st)) = 1%nat.
Proof.
  intros st.
  destruct (add_refreshes_only_new_keys "fetch" "Fetch template" st) as [Hnew _].
  destruct Hnew as (Hsteps & _ & Hworld).
  - vm_compute. apply not_elem_of_nil.
  - split; [exact Hsteps|]. exact (Hworld counting eq_refl).
Defined.

Lemma parsed_fields_from_headers_witness :
  exists info,
    _parse_rate_limit_headers utc_zone
      [("X-RateLimit-Limit", "60"); ("X-RateLimit-Reset", "0")] = Return info
    /\ forall k, k ∈ reset_fields -> info !! k = None.
Proof.
  apply (proj2 (proj2 (parsed_fields_from_headers utc_zone
           [("X-RateLimit-Limit", "60"); ("X-RateLimit-Reset", "0")]))).
  reflexivity.
Defined.

(** ** More on the step tracker *)

Section TrackerMore.

Context {World : Type}.

Implicit Types (st : state World) (c : call) (cb : callback World).

(** The loop of [_update] rewrites the first step of that key in place. *)
Lemma update_first_insert (k s d : string) (l : list Step) (i : nat) (x : Step) :
  l !! i = Some x ->
  key x = k ->
  (forall j y, (j < i)%nat -> l !! j = Some y -> key y <> k) ->
  update_first k s d l = Some (<[i := updated s d x]> l).
Proof.
  revert i. induction l as [|y l IH]; intros i Hi Hk Hfirst; [done|].
  destruct i as [|i]; simpl in *.
  - injection Hi as ->. by rewrite (proj2 (String.eqb_eq _ _) Hk).
  - assert (Hy : key y <> k) by (apply (Hfirst 0%nat y); [lia|done]).
    rewrite (proj2 (String.eqb_neq _ _) Hy).
    rewrite (IH i Hi Hk); [done|].
    intros j z Hj Hz. apply (Hfirst (S j) z); [lia|done].
Qed.

Lemma update_first_frame (k s d : string) (l l' : list Step) (i : nat) (x : Step) :
  update_first k s d l = Some l' ->
  l !! i = Some x -> key x <> k -> l' !! i = Some x.
Proof.
  revert l' i. induction l as [|y l IH]; intros l' i; simpl; [done|].
  destruct (String.eqb (key y) k) eqn:E.
  - apply String.eqb_eq in E. intros [= <-] Hi Hx.
    destruct i as [|i]; simpl in *; [|done]. congruence.
  - destruct (update_first k s d l) as [l0|]; simpl; [|done].
    intros [= <-] Hi Hx. destruct i as [|i]; simpl in *; [done|]. eauto.
Qed.

Lemma update_first_shape (k s d : string) (l l' : list Step) :
  update_first k s d l = Some l' ->
  Forall2 (fun x y => key y = key x /\ label y = label x
                      /\ (status y = status x \/ status y = s)) l l'.
Proof.
  revert l'. induction l as [|y l IH]; intros l'; simpl; [done|].
  destruct (String.eqb (key y) k).
  - intros [= <-]. constructor; [simpl; auto|].
    apply Forall2_same_length_lookup_2; [done|]. intros i a b Ha Hb.
    assert (a = b) as -> by congruence. auto.
  - destruct (update_first k s d l) as [l0|]; simpl; [|done].
    intros [= <-]. constructor; [auto|]. by apply IH.
Qed.

Lemma update_first_app (k s d : string) (l l2 : list Step) :
  update_first k s d (l ++ l2)
  = match update_first k s d l with
    | Some l' => Some (l' ++ l2)
    | None => (fun r => l ++ r) <$> update_first k s d l2
    end.
Proof.
  induction l as [|y l IH]; simpl.
  - by destruct (update_first k s d l2).
  - destruct (String.eqb (key y) k); [done|].
    rewrite IH. destruct (update_first k s d l) as [l'|]; [done|].
    by destruct (update_first k s d l2).
Qed.

Lemma update_first_again (k s d : string) (l l' : list Step) :
  update_first k s d l = Some l' -> update_first k s d l' = Some l'.
Proof.
  revert l'. induction l as [|y l IH]; intros l'; simpl; [done|].
  destruct (String.eqb (key y) k) eqn:E.
  - intros [= <-]. simpl. rewrite E. by destruct (truthy d).
  - destruct (update_first k s d l) as [l0|]; simpl; [|done].
    intros [= <-]. simpl. rewrite E. by rewrite (IH l0).
Qed.


(** X1: a transition on a registered key rewrites the first step of that
    key in place: it keeps key and label, takes the requested status, and
    takes the new detail only when that is not empty; nothing is appended
    and no other position changes. *)
Theorem transition_updates_known_step c st (i : nat) (s : Step) :
  is_transition c = true ->
  steps (self st) !! i = Some s ->
  key s = call_key c ->
  (forall j y, (j < i)%nat -> steps (self st) !! j = Some y -> key y <> call_key c) ->
  steps (self (snd (run_call c st)))
  = <[i := {| key := key s; label := label s; status := call_status c;
              detail := if truthy (call_detail c) then call_detail c else detail s |}]>
      (steps (self st)).
Proof.
  intros Htrans Hi Hk Hfirst. rewrite run_call_self. simpl.
  destruct c as [k lbl|k d|k d|k d|k d]; [done|..]; simpl in *;
    by rewrite (update_first_insert _ _ _ _ i s Hi Hk Hfirst).
Qed.

Lemma steps_after_shape c (l : list Step) :
  exists extra,
    (length extra <= 1)%nat
    /\ Forall2 (fun x y => key y = key x /\ label y = label x
                           /\ (status y = status x \/ status y = call_status c))
         (l ++ extra) (steps_after c l)
    /\ Forall (fun y => status y = call_status c) extra.
Proof.
  assert (Hsame : Forall2 (fun x y : Step => key y = key x /\ label y = label x
                     /\ (status y = status x \/ status y = call_status c)) l l).
  { apply Forall2_same_length_lookup_2; [done|]. intros i a b Ha Hb.
    assert (a = b) as -> by congruence. auto. }
  assert (Hupd : forall k d, call_key c = k -> call_detail c = d ->
            exists extra, (length extra <= 1)%nat
              /\ Forall2 (fun x y => key y = key x /\ label y = label x
                           /\ (status y = status x \/ status y = call_status c))
                   (l ++ extra)
                   (match update_first k (call_status c) d l with
                    | Some l' => l'
                    | None => l ++ [{| key := k; label := k;
                                       status := call_status c; detail := d |}]
                    end)
              /\ Forall (fun y => status y = call_status c) extra).
  { intros k d _ _. destruct (update_first k (call_status c) d l) as [l'|] eqn:E.
    - exists []. rewrite app_nil_r. split; [simpl; lia|]. split; [|done].
      by apply update_first_shape in E.
    - exists [{| key := k; label := k; status := call_status c; detail := d |}].
      split; [simpl; lia|]. split.
      + apply Forall2_app; [done|]. constructor; [|done]. simpl. auto.
      + by constructor. }
  destruct c as [k lbl|k d|k d|k d|k d]; simpl; try (by apply (Hupd k d)).
  case_bool_decide.
  - exists []. rewrite app_nil_r. split; [simpl; lia|]. done.
  - exists [{| key := k; label := lbl; status := "pending"; detail := "" |}].
    split; [simpl; lia|]. split.
    + apply Forall2_app; [done|]. constructor; [|done]. simpl. auto.
    + by constructor.
Qed.

(** X2: no action ever removes, moves or relabels a step: the step at a
    position keeps its key and label through any call, [attach_refresh]
    or [render]; the list grows by at most one step, and title and
    [status_order] never change. *)
Theorem steps_are_permanent (a : action) st :
  (forall i s, steps (self st) !! i = Some s ->
     exists s', steps (self (run_action a st)) !! i = Some s'
                /\ key s' = key s /\ label s' = label s)
  /\ (length (steps (self st)) <= length (steps (self (run_action a st)))
                               <= S (length (steps (self st))))%nat
  /\ title (self (run_action a st)) = title (self st)
  /\ status_order (self (run_action a st)) = status_order (self st).
Proof.
  destruct a as [c|o|]; simpl.
  2, 3: repeat split; try lia; eauto.
  rewrite run_call_self. simpl.
  destruct (steps_after_shape c (steps (self st))) as (extra & Hlen & Hshape & _).
  split; [|split; [|done]].
  - intros i s Hi.
    assert (Hi' : (steps (self st) ++ extra) !! i = Some s)
      by (by apply lookup_app_l_Some).
    destruct (Forall2_lookup_l _ _ _ _ _ Hshape Hi') as (s' & Hs' & Hk & Hl & _).
    eauto.
  - apply Forall2_length in Hshape. rewrite length_app in Hshape. lia.
Qed.

(** X3: a call on one key leaves every step of another key exactly as it
    was, at the same position. *)
Theorem call_leaves_other_keys c st (i : nat) (s : Step) :
  steps (self st) !! i = Some s ->
  key s <> call_key c ->
  steps (self (snd (run_call c st))) !! i = Some s.
Proof.
  intros Hi Hk. rewrite run_call_self. simpl.
  assert (Hupd : forall k d, k = call_key c ->
            match update_first k (call_status c) d (steps (self st)) with
            | Some l' => l'
            | None => steps (self st)
                        ++ [{| key := k; label := k; status := call_status c; detail := d |}]
            end !! i = Some s).
  { intros k d ->.
    destruct (update_first _ _ d (steps (self st))) as [l'|] eqn:E.
    - by apply (update_first_frame _ _ _ _ _ _ _ E).
    - by apply lookup_app_l_Some. }
  destruct c as [k lbl|k d|k d|k d|k d]; simpl; try (by apply Hupd).
  case_bool_decide; [done|]. by apply lookup_app_l_Some.
Qed.

(** X4: every call is idempotent on the steps: made twice in a row it
    leaves the steps as after the first time. *)
Theorem call_is_idempotent c st :
  steps (self (snd (run_call c (snd (run_call c st)))))
  = steps (self (snd (run_call c st))).
Proof.
  rewrite !run_call_self. simpl.
  assert (Hupd : forall k s d (l : list Step),
            let after := match update_first k s d l with
                         | Some l' => l'
                         | None => l ++ [{| key := k; label := k; status := s; detail := d |}]
                         end in
            update_first k s d after = Some after).
  { intros k s d l. destruct (update_first k s d l) as [l'|] eqn:E; simpl.
    - by apply (update_first_again _ _ _ l).
    - rewrite update_first_app, E. simpl. rewrite String.eqb_refl.
      by destruct (truthy d). }
  destruct c as [k lbl|k d|k d|k d|k d]; simpl; try (by rewrite Hupd).
  destruct (bool_decide (k ∈ key <$> steps (self st))) eqn:Hk; [by rewrite Hk|].
  rewrite bool_decide_eq_true_2; [done|].
  rewrite fmap_app. apply elem_of_app. right. by apply list_elem_of_singleton.
Qed.


Lemma steps_after_cases c (l : list Step) :
  steps_after c l
  = if bool_decide (call_key c ∈ key <$> l) then touch c l else l ++ [fresh_step c].
Proof.
  assert (Hupd : forall k s d,
            match update_first k s d l with
            | Some l' => l'
            | None => l ++ [{| key := k; label := k; status := s; detail := d |}]
            end
            = if bool_decide (k ∈ key <$> l)
              then default l (update_first k s d l)
              else l ++ [{| key := k; label := k; status := s; detail := d |}]).
  { intros k s d. destruct (update_first k s d l) as [l'|] eqn:E.
    - case_bool_decide as Hk; [done|].
      apply (update_first_None k s d) in Hk. congruence.
    - apply update_first_None in E. by rewrite bool_decide_eq_false_2. }
  destruct c as [k lbl|k d|k d|k d|k d]; simpl; [done|apply Hupd..].
Qed.

Lemma touch_keys c (l : list Step) : key <$> touch c l = key <$> l.
Proof.
  destruct c as [k lbl|k d|k d|k d|k d]; simpl; [done|..];
    match goal with |- context [update_first ?k ?s ?d ?l0] =>
      destruct (update_first k s d l0) as [l'|] eqn:E end;
    simpl; try done; by apply update_first_keys in E.
Qed.

Lemma touch_app c (l l2 : list Step) :
  call_key c ∈ key <$> l -> touch c (l ++ l2) = touch c l ++ l2.
Proof.
  intros Hk. destruct c as [k lbl|k d|k d|k d|k d]; simpl in *; [done|..];
    rewrite update_first_app;
    match goal with |- context [update_first ?k ?s ?d l] =>
      destruct (update_first k s d l) as [l'|] eqn:E end;
    try done; by apply update_first_None in E.
Qed.

Lemma update_first_comm (k1 s1 d1 k2 s2 d2 : string) (l l1 l2 : list Step) :
  k1 <> k2 ->
  update_first k1 s1 d1 l = Some l1 ->
  update_first k2 s2 d2 l = Some l2 ->
  exists l12, update_first k2 s2 d2 l1 = Some l12
              /\ update_first k1 s1 d1 l2 = Some l12.
Proof.
  intros Hne. revert l1 l2.
  induction l as [|y l IH]; intros l1 l2; simpl; [done|].
  destruct (String.eqb (key y) k1) eqn:E1; destruct (String.eqb (key y) k2) eqn:E2.
  - apply String.eqb_eq in E1, E2. congruence.
  - intros [= <-]. destruct (update_first k2 s2 d2 l) as [r2|] eqn:H2; simpl; [|done].
    intros [= <-]. simpl. rewrite E1, E2, H2. simpl. eauto.
  - destruct (update_first k1 s1 d1 l) as [r1|] eqn:H1; simpl; [|done].
    intros [= <-] [= <-]. simpl. rewrite E1, E2, H1. simpl. eauto.
  - destruct (update_first k1 s1 d1 l) as [r1|] eqn:H1; simpl; [|done].
    destruct (update_first k2 s2 d2 l) as [r2|] eqn:H2; simpl; [|done].
    intros [= <-] [= <-].
    destruct (IH r1 r2 eq_refl eq_refl) as (l12 & Ha & Hb).
    exists (y :: l12). simpl. rewrite E1, E2, Ha, Hb. done.
Qed.

Lemma touch_comm c1 c2 (l : list Step) :
  call_key c1 <> call_key c2 ->
  call_key c1 ∈ key <$> l ->
  call_key c2 ∈ key <$> l ->
  touch c1 (touch c2 l) = touch c2 (touch c1 l).
Proof.
  intros Hne H1 H2.
  assert (Hcomm : forall k1 s1 d1 k2 s2 d2,
            k1 <> k2 -> k1 ∈ key <$> l -> k2 ∈ key <$> l ->
            default (default l (update_first k2 s2 d2 l))
              (update_first k1 s1 d1 (default l (update_first k2 s2 d2 l)))
            = default (default l (update_first k1 s1 d1 l))
                (update_first k2 s2 d2 (default l (update_first k1 s1 d1 l)))).
  { intros k1 s1 d1 k2 s2 d2 Hk Hk1 Hk2.
    destruct (update_first k1 s1 d1 l) as [l1|] eqn:E1;
      [|by apply update_first_None in E1].
    destruct (update_first k2 s2 d2 l) as [l2|] eqn:E2;
      [|by apply update_first_None in E2].
    simpl.
    destruct (update_first_comm _ _ _ _ _ _ _ _ _ Hk E1 E2) as (l12 & -> & ->).
    done. }
  destruct c1 as [k1 ?|k1 d1|k1 d1|k1 d1|k1 d1];
    destruct c2 as [k2 ?|k2 d2|k2 d2|k2 d2|k2 d2]; simpl in *;
    try done; by apply Hcomm.
Qed.


(** X5: calls on different keys commute on the steps as soon as one of
    the two keys is registered: the order of the calls then does not
    matter.  (With both keys new, the order decides the display order.) *)
Theorem calls_on_distinct_keys_commute c1 c2 st :
  call_key c1 <> call_key c2 ->
  call_key c1 ∈ keys st \/ call_key c2 ∈ keys st ->
  steps (self (snd (run_call c1 (snd (run_call c2 st)))))
  = steps (self (snd (run_call c2 (snd (run_call c1 st))))).
Proof.
  intros Hne Hreg. rewrite !run_call_self. simpl. unfold keys in Hreg.
  set (l := steps (self st)) in *.
  assert (Hnew : forall c c' : call, call_key c <> call_key c' ->
            call_key c ∈ key <$> (l ++ [fresh_step c']) <-> call_key c ∈ key <$> l).
  { intros c c' Hcc. rewrite fmap_app, elem_of_app. split; [|auto].
    intros [?|Hin]; [done|]. apply list_elem_of_singleton in Hin.
    destruct c'; simpl in *; congruence. }
  rewrite (steps_after_cases c2 l), (steps_after_cases c1 l).
  destruct (decide (call_key c1 ∈ key <$> l)) as [H1|H1];
    destruct (decide (call_key c2 ∈ key <$> l)) as [H2|H2];
    rewrite ?(bool_decide_eq_true_2 _ H1), ?(bool_decide_eq_true_2 _ H2),
      ?(bool_decide_eq_false_2 _ H1), ?(bool_decide_eq_false_2 _ H2);
    rewrite !steps_after_cases.
  - rewrite !bool_decide_eq_true_2 by (by rewrite touch_keys).
    by apply touch_comm.
  - rewrite (bool_decide_eq_true_2 (call_key c1 ∈ _)) by (by apply Hnew).
    rewrite (bool_decide_eq_false_2 (call_key c2 ∈ _)) by (by rewrite touch_keys).
    by apply touch_app.
  - rewrite (bool_decide_eq_false_2 (call_key c1 ∈ _)) by (by rewrite touch_keys).
    rewrite (bool_decide_eq_true_2 (call_key c2 ∈ _)) by (by apply Hnew).
    symmetry. by apply touch_app.
  - by destruct Hreg.
Qed.

Lemma add_as_call (k lbl : string) st : add k lbl st = run_call (Add k lbl) st.
Proof. reflexivity. Qed.

(** X6: the label of a step is decided by the call that creates it.  On a
    new key, [add] followed by a transition gives a step with the label
    passed to [add]; the transition followed by [add] gives a step whose
    label is the key: the later [add] does not relabel it.  Status and
    detail are those of the transition in both orders. *)
Theorem first_call_decides_label c (lbl : string) st :
  is_transition c = true ->
  call_key c ∉ keys st ->
  steps (self (snd (run_call c (snd (add (call_key c) lbl st)))))
  = steps (self st)
    ++ [{| key := call_key c; label := lbl;
           status := call_status c; detail := call_detail c |}]
  /\ steps (self (snd (add (call_key c) lbl (snd (run_call c st)))))
     = steps (self st)
       ++ [{| key := call_key c; label := call_key c;
              status := call_status c; detail := call_detail c |}].
Proof.
  intros Htrans Hk. unfold keys in Hk.
  rewrite !(add_as_call (call_key c) lbl), !run_call_self. simpl.
  set (l := steps (self st)) in *.
  rewrite !bool_decide_eq_false_2 by done.
  assert (Hnone : forall s d, update_first (call_key c) s d l = None)
    by (intros; by apply update_first_None).
  split.
  - destruct c as [k ?|k d|k d|k d|k d]; [done|..]; simpl in *;
      rewrite update_first_app, Hnone; simpl; rewrite String.eqb_refl; simpl;
      by destruct d.
  - assert (Hin : forall s d,
              call_key c ∈ key <$> (l ++ [{| key := call_key c; label := call_key c;
                                              status := s; detail := d |}])).
    { intros. rewrite fmap_app. apply elem_of_app. right.
      by apply list_elem_of_singleton. }
    destruct c as [k ?|k d|k d|k d|k d]; [done|..]; simpl in *;
      rewrite Hnone; by rewrite bool_decide_eq_true_2.
Qed.

(** X7: every status the public interface leaves in a step is one of
    pending, running, done, error, skipped: in every reachable state each
    step's status is a key of [status_order], which is still the dict
    set up by the constructor, and [render] never falls back to the
    blank symbol. *)
Theorem statuses_are_known st :
  reachable st ->
  status_order (self st) = status_order (self {| self := __init__ ""; world := world st |})
  /\ Forall (fun s => status s ∈ known_statuses
                       /\ is_Some (status_order (self st) !! status s)
                       /\ symbol (status s) <> " ")
       (steps (self st)).
Proof.
  intros Hreach.
  assert (Hinv : status_order (self st)
                 = status_order (self {| self := __init__ ""; world := world st |})
                 /\ Forall (fun s => status s ∈ known_statuses) (steps (self st))).
  { induction Hreach as [title0 w|a st _ [IHo IHs]|w st _ IH]; [done| |done].
    destruct a as [c|o|]; [|done..]. simpl.
    rewrite run_call_self. simpl. split; [done|].
    destruct (steps_after_shape c (steps (self st))) as (extra & _ & Hshape & Hextra).
    assert (Hc : call_status c ∈ known_statuses)
      by (destruct c; simpl; unfold known_statuses; by repeat constructor).
    apply Forall_lookup. intros i y Hy.
    destruct (Forall2_lookup_r _ _ _ _ _ Hshape Hy) as (x & Hx & _ & _ & [Hs|Hs]).
    - rewrite Hs. apply lookup_app_Some in Hx as [Hx|[_ Hx]].
      + by apply (Forall_lookup_1 _ _ _ _ IHs Hx).
      + rewrite (Forall_lookup_1 _ _ _ _ Hextra Hx). done.
    - by rewrite Hs. }
  destruct Hinv as [Ho Hs]. split; [done|].
  apply (Forall_impl _ _ _ Hs). intros s Hin. split; [done|].
  rewrite Ho. unfold known_statuses in Hin.
  rewrite !elem_of_cons, elem_of_nil in Hin.
  destruct Hin as [->|[->|[->|[->|[->|[]]]]]]; split; by vm_compute; eauto.
Qed.

(** X8: with a callback attached, [start], [complete], [error] and [skip]
    refresh on every call, also when the step was already there or
    nothing changed: the callback runs once, on the steps as updated. *)
Theorem transition_always_refreshes c cb st :
  is_transition c = true ->
  _refresh_cb (self st) = Some cb ->
  run_call c st = _maybe_refresh (with_steps (steps (self (snd (run_call c st)))) st)
  /\ world (snd (run_call c st))
     = snd (cb (title (self st)) (steps (self (snd (run_call c st)))) (world st)).
Proof.
  intros Htrans Hcb. rewrite run_call_self. simpl.
  assert (Hrun : run_call c st
                 = _maybe_refresh (with_steps (steps_after c (steps (self st))) st)).
  { rewrite run_call_unfold. by destruct c. }
  split; [done|]. rewrite Hrun.
  pose proof (maybe_refresh_result
                (with_steps (steps_after c (steps (self st))) st)) as H.
  simpl in H. rewrite Hcb in H.
  destruct (cb _ _ _) as [r w]. by rewrite H.
Qed.

(** X9: once the callback is taken away with [attach_refresh(None)],
    every call returns normally and leaves the world untouched, and
    [attach_refresh] itself changes neither steps nor title nor world. *)
Theorem detached_tracker_is_silent (o : option (callback World)) c st :
  steps (self (snd (attach_refresh o st))) = steps (self st)
  /\ title (self (snd (attach_refresh o st))) = title (self st)
  /\ world (snd (attach_refresh o st)) = world st
  /\ _refresh_cb (self (snd (attach_refresh o st))) = o
  /\ fst (run_call c (snd (attach_refresh None st))) = Return tt
  /\ world (snd (run_call c (snd (attach_refresh None st)))) = world st
  /\ steps (self (snd (run_call c (snd (attach_refresh None st)))))
     = steps (self (snd (run_call c st))).
Proof.
  repeat split.
  - by apply run_call_result.
  - rewrite run_call_unfold.
    set (st0 := snd (attach_refresh None st)).
    assert (Hr : forall l, world (snd (_maybe_refresh (with_steps l st0))) = world st).
    { intros l. pose proof (maybe_refresh_result (with_steps l st0)) as H.
      simpl in H. by rewrite H. }
    destruct c; try apply Hr. by destruct (bool_decide _).
  - by rewrite !run_call_self.
Qed.

End TrackerMore.

(** ** More on strings *)

Lemma drop_while_head {A} (p : A -> bool) (l : list A) :
  match drop_while p l with
  | [] => True
  | x :: _ => p x = false
  end.
Proof.
  induction l as [|x l IH]; simpl; [done|].
  destruct (p x) eqn:E; [exact IH|exact E].
Qed.

Lemma drop_while_fixed {A} (p : A -> bool) (l : list A) :
  match l with [] => True | x :: _ => p x = false end ->
  drop_while p l = l.
Proof. destruct l as [|x l]; simpl; [done|]. by intros ->. Qed.

Lemma drop_while_suffix {A} (p : A -> bool) (l : list A) :
  exists k, l = k ++ drop_while p l.
Proof.
  induction l as [|x l [k IH]]; simpl; [by exists []|].
  destruct (p x); [|by exists []].
  exists (x :: k). simpl. by rewrite <- IH.
Qed.

(** Dropping at the end gives a first part of the list. *)
Lemma drop_end_prefix {A} (p : A -> bool) (l : list A) :
  exists k, l = rev (drop_while p (rev l)) ++ k.
Proof.
  destruct (drop_while_suffix p (rev l)) as [k Hk].
  exists (rev k). rewrite <- rev_app_distr, <- Hk. by rewrite rev_involutive.
Qed.

Lemma chars_ok_chars (s : string) : chars_ok (chars s).
Proof.
  induction s as [|c r [IH1 IH2]]; [by split|].
  simpl. destruct (chars r) as [|x xs] eqn:E.
  - split; [by repeat constructor|done].
  - apply Forall_cons in IH1 as [Hx Hxs]. simpl in IH2.
    destruct (starts_with_continuation x) eqn:Hc.
    + split; [|done]. constructor; [|done].
      destruct x as [|c' t]; [done|]. simpl in *. by rewrite Hc, Hx.
    + split; [by repeat constructor|]. simpl. by constructor.
Qed.

Lemma chars_ok_infix (k l k' : list string) :
  chars_ok (k ++ l ++ k') -> chars_ok l.
Proof.
  intros [H1 H2]. apply Forall_app in H1 as [_ [H1 _]%Forall_app].
  split; [done|].
  destruct l as [|x l]; [done|]. simpl.
  destruct k as [|y k]; simpl in H2.
  - by apply Forall_app in H2 as [H2 _].
  - apply Forall_app in H2 as [_ H2]. apply Forall_cons in H2 as [_ H2].
    by apply Forall_app in H2 as [H2 _].
Qed.

Lemma chars_cons_continuation (c : ascii) (t rest : string) :
  all_continuation t = true ->
  match chars rest with
  | [] => True
  | x :: _ => starts_with_continuation x = false
  end ->
  chars (String c (t +:+ rest)) = String c t :: chars rest.
Proof.
  revert c. induction t as [|c' t IH]; intros c Ht Hrest.
  - change ("" +:+ rest) with rest. simpl.
    destruct (chars rest) as [|x xs]; [done|]. by rewrite Hrest.
  - simpl in Ht. apply andb_prop in Ht as [Hc' Ht].
    change (String c' t +:+ rest) with (String c' (t +:+ rest)).
    change (chars (String c (String c' (t +:+ rest))))
      with (match chars (String c' (t +:+ rest)) with
            | x :: xs =>
                if starts_with_continuation x
                then String c x :: xs
                else String c EmptyString :: x :: xs
            | [] => [String c EmptyString]
            end).
    rewrite (IH c' Ht Hrest). simpl. by rewrite Hc'.
Qed.

(** Joining characters and splitting again gives the characters back. *)
Lemma chars_join_chars (l : list string) :
  chars_ok l -> chars (join_chars l) = l.
Proof.
  induction l as [|x l IH]; [done|]. intros [H1 H2].
  apply Forall_cons in H1 as [Hx H1]. simpl in H2.
  assert (Hl : chars (join_chars l) = l).
  { apply IH. split; [done|]. destruct l; [done|]. simpl.
    by apply Forall_cons in H2 as [_ H2]. }
  destruct x as [|c t]; [done|]. simpl in Hx.
  change (join_chars (String c t :: l)) with (String c (t +:+ join_chars l)).
  rewrite chars_cons_continuation, Hl; [done|done|].
  rewrite Hl. destruct l as [|y l]; [done|].
  by apply Forall_cons in H2 as [H2 _].
Qed.

(** The characters of [strip s]: those of [s] without the whitespace at
    both ends. *)
Lemma chars_strip (s : string) :
  chars (strip s)
  = rev (drop_while isspace (rev (drop_while isspace (chars s)))).
Proof.
  unfold strip. apply chars_join_chars.
  destruct (drop_while_suffix isspace (chars s)) as [k Hk].
  destruct (drop_end_prefix isspace (drop_while isspace (chars s))) as [k' Hk'].
  apply (chars_ok_infix k _ k'). rewrite <- Hk', <- Hk. apply chars_ok_chars.
Qed.

Lemma last_rev_head {A} (l : list A) : last (rev l) = head l.
Proof. destruct l as [|x l]; [done|]. simpl. apply last_snoc. Qed.

(** A stripped string neither starts nor ends with whitespace. *)
Lemma strip_ends (s : string) :
  (forall x, head (chars (strip s)) = Some x -> isspace x = false)
  /\ (forall y, last (chars (strip s)) = Some y -> isspace y = false).
Proof.
  rewrite chars_strip.
  set (l1 := drop_while isspace (chars s)).
  split.
  - intros x Hx.
    destruct (drop_end_prefix isspace l1) as [k Hk].
    pose proof (drop_while_head isspace (chars s)) as Hh. fold l1 in Hh.
    destruct (rev (drop_while isspace (rev l1))) as [|x' r]; [done|].
    injection Hx as ->. rewrite Hk in Hh. exact Hh.
  - intros y Hy.
    pose proof (drop_while_head isspace (rev l1)) as Hh.
    rewrite last_rev_head in Hy.
    destruct (drop_while isspace (rev l1)) as [|y' r]; [done|].
    injection Hy as ->. exact Hh.
Qed.

Lemma strip_idempotent (s : string) : strip (strip s) = strip s.
Proof.
  unfold strip at 1. rewrite chars_strip.
  set (l1 := drop_while isspace (chars s)).
  set (l2 := rev (drop_while isspace (rev l1))).
  assert (H2 : drop_while isspace l2 = l2).
  { apply drop_while_fixed.
    destruct (drop_end_prefix isspace l1) as [k Hk]. fold l2 in Hk.
    pose proof (drop_while_head isspace (chars s)) as Hh. fold l1 in Hh.
    destruct l2 as [|x r]; [done|]. rewrite Hk in Hh. exact Hh. }
  rewrite H2. subst l2. rewrite rev_involutive.
  rewrite (drop_while_fixed isspace (drop_while isspace (rev l1)))
    by apply drop_while_head.
  reflexivity.
Qed.

(** ** More on the token *)

(** X10: the token [_github_token] returns is never empty and carries no
    whitespace at either end, whichever source it came from; it is the
    text after ["Bearer "] in the header. *)
Theorem github_token_is_stripped (environ : gmap string string)
    (cli_token : option string) (t : string) :
  _github_token environ cli_token = Some t ->
  t <> ""
  /\ strip t = t
  /\ (forall x, head (chars t) = Some x -> isspace x = false)
  /\ (forall y, last (chars t) = Some y -> isspace y = false)
  /\ _github_auth_headers environ cli_token = {[ "Authorization" := "Bearer " +:+ t ]}.
Proof.
  intros Htok.
  assert (Hne : t <> "") by (by apply (github_token_nonempty environ cli_token)).
  assert (Hstrip : exists s, t = strip s).
  { rewrite github_token_spec in Htok. simpl in Htok.
    destruct (truthy _); [|done]. injection Htok as <-. eauto. }
  destruct Hstrip as [s ->].
  split; [done|]. split; [apply strip_idempotent|].
  split; [apply strip_ends|]. split; [apply strip_ends|].
  unfold _github_auth_headers. rewrite Htok.
  by rewrite (proj2 (truthy_spec _) Hne).
Qed.

Lemma github_token_is_stripped_witness :
  strip "ghp_16C7e42F292c" = "ghp_16C7e42F292c"
  /\ _github_auth_headers {[ "GH_TOKEN" := "  ghp_16C7e42F292c " ]} None
     = {[ "Authorization" := "Bearer ghp_16C7e42F292c" ]}.
Proof.
  destruct (github_token_is_stripped {[ "GH_TOKEN" := "  ghp_16C7e42F292c " ]} None
              "ghp_16C7e42F292c") as (_ & Hstrip & _ & _ & Hheaders).
  - reflexivity.
  - split; [exact Hstrip|exact Hheaders].
Defined.

(** X11: a source of higher precedence shadows the lower ones entirely.
    A non-empty explicit token makes the result independent of the
    environment; an empty explicit token counts as none; and with no
    explicit token a non-empty GH_TOKEN makes the result independent of
    GITHUB_TOKEN, so a GH_TOKEN of blanks alone gives an anonymous
    request even when GITHUB_TOKEN holds a token. *)
Theorem token_sources_shadow (environ : gmap string string) :
  (forall environ' e, e <> "" ->
     _github_token environ (Some e) = _github_token environ' (Some e))
  /\ _github_token environ (Some "") = _github_token environ None
  /\ (forall g o, environ !! "GH_TOKEN" = Some g -> g <> "" ->
        _github_token (<[ "GITHUB_TOKEN" := o ]> environ) None = _github_token environ None
        /\ _github_token (delete "GITHUB_TOKEN" environ) None = _github_token environ None
        /\ (all_whitespace g = true ->
            _github_auth_headers (<[ "GITHUB_TOKEN" := o ]> environ) None = ∅)).
Proof.
  split; [|split].
  - intros environ' e He. rewrite !github_token_spec.
    destruct e; [done|]. reflexivity.
  - by rewrite !github_token_spec.
  - intros g o Hg Hne.
    assert (Hres : forall env : gmap string string,
              env !! "GH_TOKEN" = Some g -> resolve_by_precedence env None = Some g).
    { intros env Henv. unfold resolve_by_precedence. rewrite Henv. by destruct g. }
    assert (H1 : <[ "GITHUB_TOKEN" := o ]> environ !! "GH_TOKEN" = Some g)
      by (by rewrite lookup_insert_ne).
    assert (H2 : delete "GITHUB_TOKEN" environ !! "GH_TOKEN" = Some g)
      by (by rewrite lookup_delete_ne).
    rewrite !github_token_spec, (Hres _ Hg), (Hres _ H1), (Hres _ H2).
    repeat split. intros Hws. unfold _github_auth_headers.
    rewrite github_token_spec, (Hres _ H1). simpl.
    by rewrite (strip_all_whitespace _ Hws).
Qed.

Lemma token_sources_shadow_witness :
  _github_token {[ "GH_TOKEN" := "  "; "GITHUB_TOKEN" := "ghp_x" ]} None = None
  /\ _github_auth_headers
       (<[ "GITHUB_TOKEN" := "ghp_y" ]> {[ "GH_TOKEN" := "  "; "GITHUB_TOKEN" := "ghp_x" ]})
       None = ∅.
Proof.
  destruct (token_sources_shadow {[ "GH_TOKEN" := "  "; "GITHUB_TOKEN" := "ghp_x" ]})
    as (_ & _ & Hgh).
  destruct (Hgh "  " "ghp_y") as (_ & _ & Hanon); [reflexivity|discriminate|].
  split; [reflexivity|]. apply Hanon. reflexivity.
Defined.

(** ** More on [render] *)

(** X12: [render] shows the detail of a step stripped: whitespace around
    the detail does not change the line, and a detail of blanks alone
    gives the line of a step without detail. *)
Theorem render_strips_detail (s : Step) :
  step_line s
  = step_line {| key := key s; label := label s; status := status s;
                 detail := strip (detail s) |}
  /\ (all_whitespace (detail s) = true ->
      step_line s
      = step_line {| key := key s; label := label s; status := status s;
                     detail := "" |}).
Proof.
  assert (Htext : forall d, (if truthy d then strip d else "") = strip d)
    by (intros [|a d]; reflexivity).
  split.
  - unfold step_line. simpl. rewrite !Htext. by rewrite strip_idempotent.
  - intros Hws. unfold step_line. simpl. rewrite !Htext.
    by rewrite (strip_all_whitespace _ Hws).
Qed.

Lemma render_strips_detail_witness :
  step_line {| key := "fetch"; label := "Fetch"; status := "running"; detail := "   " |}
  = "[cyan]○[/cyan] [white]Fetch[/white]".
Proof.
  rewrite (proj2 (render_strips_detail
                    {| key := "fetch"; label := "Fetch"; status := "running";
                       detail := "   " |}));
    reflexivity.
Defined.

(** ** More on the rate-limit headers *)

Lemma lower_ascii_idempotent (c : ascii) : lower_ascii (lower_ascii c) = lower_ascii c.
Proof. destruct c as [[] [] [] [] [] [] [] []]; reflexivity. Qed.

Lemma lower_idempotent (s : string) : lower (lower s) = lower s.
Proof.
  induction s as [|c s IH]; [done|]. simpl. by rewrite lower_ascii_idempotent, IH.
Qed.

Lemma contains_rename (f : string -> string) (headers : Headers) (k : string) :
  (forall n, lower (f n) = lower n) ->
  contains (rename f headers) k = contains headers k.
Proof.
  intros Hf. unfold contains, rename.
  induction headers as [|[n v] hs IH]; [done|]. simpl. by rewrite Hf, IH.
Qed.

Lemma get_rename (f : string -> string) (headers : Headers) (k : string)
    (d : option string) :
  (forall n, lower (f n) = lower n) ->
  get (rename f headers) k d = get headers k d.
Proof.
  intros Hf. unfold get, values_of, rename.
  assert (H : map snd (List.filter (fun kv => String.eqb (lower (fst kv)) (lower k))
                         (map (fun kv => (f (fst kv), snd kv)) headers))
              = map snd (List.filter (fun kv => String.eqb (lower (fst kv)) (lower k))
                           headers)).
  { induction headers as [|[n v] hs IH]; [done|]. simpl. rewrite Hf.
    destruct (String.eqb (lower n) (lower k)); simpl; by rewrite IH. }
  by rewrite H.
Qed.

Lemma fromtimestamp_utc_Return (e : Z) (d : datetime) :
  fromtimestamp_utc e = Return d ->
  representable e = true /\ d = {| timestamp := e; utcoffset := 0; tzname := "UTC" |}.
Proof.
  unfold fromtimestamp_utc.
  destruct (_ || _); [done|]. destruct (_ || _); [done|].
  destruct (representable e); [|done].
  by intros [= <-].
Qed.

Lemma fromtimestamp_utc_representable (e : Z) :
  representable e = true ->
  fromtimestamp_utc e = Return {| timestamp := e; utcoffset := 0; tzname := "UTC" |}.
Proof.
  intros Hrep. unfold fromtimestamp_utc. rewrite Hrep.
  unfold representable, min_timestamp, max_timestamp in Hrep.
  apply andb_prop in Hrep as [H1%Z.leb_le H2%Z.leb_le].
  replace ((e <? - 2 ^ 63) || (2 ^ 63 <=? e)) with false
    by (symmetry; apply orb_false_intro; [apply Z.ltb_ge|apply Z.leb_gt]; lia).
  replace ((e <? gmtime_min) || (gmtime_max <? e)) with false
    by (symmetry; apply orb_false_intro; apply Z.ltb_ge;
        unfold gmtime_min, gmtime_max; lia).
  done.
Qed.

Section RateLimitMore.

Variable localtime : Z -> Z * string.

Local Ltac field_cases H :=
  unfold reset_fields, retry_fields in H; simpl in H;
  repeat (apply elem_of_cons in H as [H|H];
          [first [discriminate H | subst | clear H]|]);
  try (by apply elem_of_nil in H).

Local Ltac not_field :=
  unfold reset_fields, retry_fields;
  rewrite !not_elem_of_cons; repeat split; try discriminate; apply not_elem_of_nil.

Lemma astimezone_Return (e : Z) (d : datetime) :
  astimezone localtime {| timestamp := e; utcoffset := 0; tzname := "UTC" |} = Return d ->
  representable (e + fst (localtime e)) = true
  /\ d = {| timestamp := e; utcoffset := fst (localtime e); tzname := snd (localtime e) |}.
Proof.
  unfold astimezone. simpl. destruct (localtime e) as [off name]. simpl.
  destruct (representable (e + off)); [|done]. by intros [= <-].
Qed.

(** When [parse_reset] returns, and what it returns. *)
Lemma parse_reset_cases (headers : Headers) (info : gmap string value) :
  match parse_reset localtime headers info with
  | Return info' =>
      (info' = info
       /\ (contains headers "X-RateLimit-Reset" = false
           \/ int_of (get headers "X-RateLimit-Reset" (Some "0")) = Return 0))
      \/ (exists e,
            contains headers "X-RateLimit-Reset" = true
            /\ int_of (get headers "X-RateLimit-Reset" (Some "0")) = Return e
            /\ e <> 0
            /\ representable e = true
            /\ representable (e + fst (localtime e)) = true
            /\ info' = <[ "reset_local" :=
                           VDatetime {| timestamp := e;
                                        utcoffset := fst (localtime e);
                                        tzname := snd (localtime e) |} ]>
                         (<[ "reset_time" :=
                               VDatetime {| timestamp := e; utcoffset := 0;
                                            tzname := "UTC" |} ]>
                            (<[ "reset_epoch" := VInt e ]> info)))
  | Raise _ =>
      contains headers "X-RateLimit-Reset" = true
      /\ ((exists x, int_of (get headers "X-RateLimit-Reset" (Some "0")) = Raise x)
          \/ (exists e, int_of (get headers "X-RateLimit-Reset" (Some "0")) = Return e
                        /\ e <> 0
                        /\ (representable e = false
                            \/ representable (e + fst (localtime e)) = false)))
  end.
Proof.
  destruct (parse_reset localtime headers info) as [info'|x] eqn:Hp.
  - apply parse_reset_spec in Hp
      as [?|(e & utc & local & Hc & Hint & He & Hutc & Hloc & ->)]; [by left|].
    apply fromtimestamp_utc_Return in Hutc as [Hrep ->].
    apply astimezone_Return in Hloc as [Hrep' ->].
    right. exists e. done.
  - unfold parse_reset in Hp.
    destruct (contains headers "X-RateLimit-Reset"); [|done]. split; [done|].
    destruct (int_of _) as [e|y]; simpl in Hp; [|eauto].
    right. exists e. split; [done|].
    destruct (e =? 0) eqn:He; [done|]. apply Z.eqb_neq in He. split; [done|].
    destruct (representable e) eqn:Hrep; [|by left].
    rewrite (fromtimestamp_utc_representable _ Hrep) in Hp. simpl in Hp.
    destruct (representable (e + fst (localtime e))) eqn:Hrep'; [|by right].
    unfold astimezone in Hp. simpl in Hp.
    destruct (localtime e) as [off name]. simpl in *. by rewrite Hrep' in Hp.
Qed.


(** The fields of a parsed result, one by one. *)
Lemma parse_result (headers : Headers) (info : gmap string value) :
  _parse_rate_limit_headers localtime headers = Return info ->
  info !! "limit" = VStr <$> get headers "X-RateLimit-Limit" None
  /\ info !! "remaining" = VStr <$> get headers "X-RateLimit-Remaining" None
  /\ ((forall k, k ∈ reset_fields -> info !! k = None)
      \/ (exists e,
            int_of (get headers "X-RateLimit-Reset" (Some "0")) = Return e
            /\ contains headers "X-RateLimit-Reset" = true
            /\ e <> 0
            /\ info !! "reset_epoch" = Some (VInt e)
            /\ info !! "reset_time"
               = Some (VDatetime {| timestamp := e; utcoffset := 0; tzname := "UTC" |})
            /\ info !! "reset_local"
               = Some (VDatetime {| timestamp := e;
                                    utcoffset := fst (localtime e);
                                    tzname := snd (localtime e) |})))
  /\ info !! "retry_after_seconds"
     = match get headers "Retry-After" None with
       | Some raw => match int raw with Return n => Some (VInt n) | Raise _ => None end
       | None => None
       end
  /\ info !! "retry_after"
     = match get headers "Retry-After" None with
       | Some raw => match int raw with Return _ => None | Raise _ => Some (VStr raw) end
       | None => None
       end.
Proof.
  unfold _parse_rate_limit_headers.
  set (i1 := parse_field headers "X-RateLimit-Limit" "limit" ∅).
  set (i2 := parse_field headers "X-RateLimit-Remaining" "remaining" i1).
  pose proof (parse_reset_cases headers i2) as Hcases.
  destruct (parse_reset localtime headers i2) as [i3|?] eqn:Hreset; simpl; [|done].
  intros Hretry.
  assert (Hi2 : forall k, k ∈ reset_fields ++ retry_fields -> i2 !! k = None).
  { intros k Hk. subst i2 i1.
    rewrite !parse_field_ne by (field_cases Hk; discriminate). apply lookup_empty. }
  assert (Hi3 : forall k, k ∈ retry_fields -> i3 !! k = None).
  { intros k Hk.
    rewrite (parse_reset_frame _ _ _ _ _ Hreset) by (field_cases Hk; not_field).
    apply Hi2. apply elem_of_app. by right. }
  assert (Hframe : forall k, k ∉ retry_fields -> info !! k = i3 !! k).
  { destruct (parse_retry_after_frame headers i3) as (i4 & Hi4 & Hf & _).
    assert (i4 = info) as -> by congruence. done. }
  split; [|split; [|split]].
  - rewrite Hframe by not_field.
    rewrite (parse_reset_frame _ _ _ _ _ Hreset) by not_field.
    subst i2. rewrite parse_field_ne by done. by apply parse_field_eq.
  - rewrite Hframe by not_field.
    rewrite (parse_reset_frame _ _ _ _ _ Hreset) by not_field.
    apply parse_field_eq. subst i1. by rewrite parse_field_ne.
  - destruct Hcases as [[-> _]|(e & Hc & Hint & He & _ & _ & ->)].
    + left. intros k Hk. rewrite Hframe by (field_cases Hk; not_field).
      apply Hi2. apply elem_of_app. by left.
    + right. exists e. rewrite !Hframe by not_field.
      repeat split; try done.
      * do 2 (rewrite lookup_insert_ne by done). by rewrite lookup_insert_eq.
      * rewrite lookup_insert_ne by done. by rewrite lookup_insert_eq.
      * by rewrite lookup_insert_eq.
  - destruct (parse_retry_after_spec headers i3)
      as [(Hc & Hr)|[(raw & n & Hc & Hget & Hint & Hr)|(raw & Hc & Hget & Hint & Hr)]];
      rewrite Hr in Hretry; injection Hretry as <-.
    + rewrite (get_absent _ _ _ Hc). split; apply Hi3; by repeat constructor.
    + rewrite Hget, Hint, lookup_insert_eq, lookup_insert_ne by done.
      split; [done|]. apply Hi3. by repeat constructor.
    + rewrite Hget, Hint, lookup_insert_eq, lookup_insert_ne by done.
      split; [|done]. apply Hi3. by repeat constructor.
Qed.

Lemma parse_returns_iff_reset (headers : Headers) :
  (exists info, _parse_rate_limit_headers localtime headers = Return info)
  <-> (exists i, parse_reset localtime headers
                   (parse_field headers "X-RateLimit-Remaining" "remaining"
                      (parse_field headers "X-RateLimit-Limit" "limit" ∅)) = Return i).
Proof.
  unfold _parse_rate_limit_headers.
  destruct (parse_reset _ _ _) as [i3|x]; simpl.
  - destruct (parse_retry_after_frame headers i3) as (i4 & -> & _). split; eauto.
  - split; intros [? [=]].
Qed.

(** The formatter never fails on a parsed result. *)
Lemma format_after_parse (status_code : Z) (headers : Headers) (url : string)
    (info : gmap string value) :
  _parse_rate_limit_headers localtime headers = Return info ->
  exists lines,
    rate_limit_section info
      ["GitHub API returned status " +:+ str_of_int status_code +:+ " for " +:+ url; ""]
    = Return lines
    /\ _format_rate_limit_error localtime status_code headers url
       = Return (join newline (lines ++ tips)).
Proof.
  intros Hparse.
  assert (Hsec : exists lines,
            rate_limit_section info
              ["GitHub API returned status " +:+ str_of_int status_code +:+ " for " +:+ url;
               ""] = Return lines).
  { destruct (decide (info = ∅)) as [->|Hne]; [by eexists|].
    rewrite rate_limit_section_ok; [by eexists|done|].
    intros v Hv.
    destruct (parse_result _ _ Hparse) as (_ & _ & [Hnone|(e & _ & _ & _ & _ & _ & Hl)] & _).
    - rewrite Hnone in Hv by (by repeat constructor). done.
    - rewrite Hl in Hv. injection Hv as <-. eauto. }
  destruct Hsec as [lines Hsec]. exists lines. split; [done|].
  unfold _format_rate_limit_error. rewrite Hparse. simpl.
  change (["GitHub API returned status " +:+ str_of_int status_code +:+ " for " +:+ url]
          ++ [""])
    with ["GitHub API returned status " +:+ str_of_int status_code +:+ " for " +:+ url; ""].
  by rewrite Hsec.
Qed.

(** X13: the reset header is the only thing that can make the parse or
    the diagnostic fail.  [_parse_rate_limit_headers] returns exactly when
    X-RateLimit-Reset is absent, or is an integer that is zero or an
    epoch the calendar can represent (also in the local zone);
    [_format_rate_limit_error] returns exactly when the parse does, and
    raises what the parse raises. *)
Theorem only_reset_header_can_fail (headers : Headers) :
  ((exists info, _parse_rate_limit_headers localtime headers = Return info)
   <-> (contains headers "X-RateLimit-Reset" = false
        \/ exists e, int_of (get headers "X-RateLimit-Reset" (Some "0")) = Return e
                     /\ (e = 0 \/ (representable e = true
                                   /\ representable (e + fst (localtime e)) = true))))
  /\ (forall status_code url,
        (exists msg, _format_rate_limit_error localtime status_code headers url = Return msg)
        <-> (exists info, _parse_rate_limit_headers localtime headers = Return info))
  /\ (forall x status_code url,
        _parse_rate_limit_headers localtime headers = Raise x ->
        _format_rate_limit_error localtime status_code headers url = Raise x).
Proof.
  split; [|split].
  - rewrite parse_returns_iff_reset.
    set (i2 := parse_field headers "X-RateLimit-Remaining" "remaining" _).
    pose proof (parse_reset_cases headers i2) as Hcases.
    destruct (parse_reset localtime headers i2) as [i3|x]; split.
    + intros _. destruct Hcases as [[_ [Hc|Hz]]|(e & Hc & Hint & He & H1 & H2 & _)].
      * by left.
      * right. exists 0. eauto.
      * right. exists e. eauto.
    + eauto.
    + intros [? [=]].
    + destruct Hcases as (Hc & [[y Hy]|(e & Hint & He & Hrep)]);
        intros [?|(e' & Hint' & Hok)]; try congruence.
      assert (e' = e) as -> by congruence.
      destruct Hok as [->|[H1 H2]]; [done|]. destruct Hrep; congruence.
  - intros status_code url. split.
    + unfold _format_rate_limit_error.
      destruct (_parse_rate_limit_headers localtime headers); [eauto|].
      intros [? [=]].
    + intros [info Hparse].
      destruct (format_after_parse status_code headers url info Hparse)
        as (lines & _ & ->). eauto.
  - intros x status_code url Hparse. unfold _format_rate_limit_error.
    by rewrite Hparse.
Qed.

(** X14: the three reset fields go together: a parsed result has either
    none of them or all three, and then they name one instant:
    [reset_epoch] is the integer of the header, [reset_time] that instant
    in UTC and [reset_local] the same instant in the local zone. *)
Theorem reset_fields_go_together (headers : Headers) (info : gmap string value) :
  _parse_rate_limit_headers localtime headers = Return info ->
  (forall k, k ∈ reset_fields -> info !! k = None)
  \/ (exists e,
        int_of (get headers "X-RateLimit-Reset" (Some "0")) = Return e
        /\ e <> 0
        /\ info !! "reset_epoch" = Some (VInt e)
        /\ info !! "reset_time"
           = Some (VDatetime {| timestamp := e; utcoffset := 0; tzname := "UTC" |})
        /\ info !! "reset_local"
           = Some (VDatetime {| timestamp := e;
                                utcoffset := fst (localtime e);
                                tzname := snd (localtime e) |})).
Proof.
  intros Hparse.
  destruct (parse_result _ _ Hparse)
    as (_ & _ & [Hnone|(e & Hint & _ & He & H1 & H2 & H3)] & _); [by left|].
  right. exists e. done.
Qed.

(** X15: Retry-After gives exactly one field: [retry_after_seconds] with
    the integer when [int] accepts the text, else [retry_after] with the
    text as received; never both, and neither without the header. *)
Theorem retry_after_fields_exclude (headers : Headers) (info : gmap string value) :
  _parse_rate_limit_headers localtime headers = Return info ->
  match get headers "Retry-After" None with
  | None => info !! "retry_after_seconds" = None /\ info !! "retry_after" = None
  | Some raw =>
      (exists n, int raw = Return n
                 /\ info !! "retry_after_seconds" = Some (VInt n)
                 /\ info !! "retry_after" = None)
      \/ (int raw = Raise ValueError
          /\ info !! "retry_after_seconds" = None
          /\ info !! "retry_after" = Some (VStr raw))
  end.
Proof.
  intros Hparse.
  destruct (parse_result _ _ Hparse) as (_ & _ & _ & Hs & Hr).
  destruct (get headers "Retry-After" None) as [raw|]; [|done].
  destruct (int_total raw) as [[n Hn]|Hn]; rewrite Hn in Hs, Hr.
  - left. eauto.
  - right. done.
Qed.


(** X16: a Retry-After that is not an integer (an HTTP date, say) is kept
    in the parsed result but never shown: when it is the only rate-limit
    header, the diagnostic has the rate-limit heading with no fact under
    it. *)
Theorem raw_retry_after_is_not_shown (status_code : Z) (headers : Headers)
    (url raw : string) :
  contains headers "X-RateLimit-Limit" = false ->
  contains headers "X-RateLimit-Remaining" = false ->
  contains headers "X-RateLimit-Reset" = false ->
  get headers "Retry-After" None = Some raw ->
  int raw = Raise ValueError ->
  _parse_rate_limit_headers localtime headers = Return {[ "retry_after" := VStr raw ]}
  /\ _format_rate_limit_error localtime status_code headers url
     = Return (join newline
                 (["GitHub API returned status " +:+ str_of_int status_code
                     +:+ " for " +:+ url;
                   "";
                   "[bold]Rate Limit Information:[/bold]";
                   ""] ++ tips)).
Proof.
  intros Hl Hr Hreset Hget Hint.
  assert (Hc : contains headers "Retry-After" = true).
  { destruct (contains headers "Retry-After") eqn:E; [done|].
    apply get_None_absent in E. congruence. }
  assert (Hparse : _parse_rate_limit_headers localtime headers
                   = Return {[ "retry_after" := VStr raw ]}).
  { unfold _parse_rate_limit_headers, parse_field, parse_reset, parse_retry_after.
    rewrite Hl, Hr, Hreset, Hc, Hget. simpl. by rewrite Hint. }
  split; [done|].
  unfold _format_rate_limit_error. rewrite Hparse. simpl.
  rewrite rate_limit_section_ok.
  - by rewrite !optional_line_None.
  - intros Heq. apply (f_equal (fun m => m !! "retry_after")) in Heq.
    by rewrite lookup_singleton_eq, lookup_empty in Heq.
  - intros v Hv. by rewrite lookup_singleton_ne in Hv.
Qed.

(** X17: every message shows the limit as the header has it and the
    retry delay as the integer read from Retry-After: the lines
    ["  • Rate Limit: <text> requests/hour"] and
    ["  • Retry after: <n> seconds"] are there whenever the header is. *)
Theorem limit_and_retry_lines (status_code : Z) (headers : Headers)
    (url msg : string) :
  _format_rate_limit_error localtime status_code headers url = Return msg ->
  (forall v, get headers "X-RateLimit-Limit" None = Some v ->
     line_of ("  • Rate Limit: " +:+ v +:+ " requests/hour") msg)
  /\ (forall raw n, get headers "Retry-After" None = Some raw -> int raw = Return n ->
        line_of ("  • Retry after: " +:+ str_of_int n +:+ " seconds") msg).
Proof.
  intros Hformat.
  assert (Hinfo : exists info, _parse_rate_limit_headers localtime headers = Return info).
  { unfold _format_rate_limit_error in Hformat.
    destruct (_parse_rate_limit_headers localtime headers); [eauto|done]. }
  destruct Hinfo as [info Hparse].
  destruct (format_after_parse status_code headers url info Hparse)
    as (lines & Hsec & Hmsg).
  assert (msg = join newline (lines ++ tips)) as -> by congruence.
  destruct (parse_result _ _ Hparse) as (Hl & _ & Hreset & Hs & _).
  assert (Hdt : forall v, info !! "reset_local" = Some v -> exists d, v = VDatetime d).
  { intros v Hv. destruct Hreset as [Hnone|(e & _ & _ & _ & _ & _ & Hloc)].
    - rewrite Hnone in Hv by (by repeat constructor). done.
    - rewrite Hloc in Hv. injection Hv as <-. eauto. }
  split.
  - intros v Hv. rewrite Hv in Hl. simpl in Hl.
    rewrite rate_limit_section_ok in Hsec;
      [|intros ->; by rewrite lookup_empty in Hl|done].
    injection Hsec as <-. rewrite (optional_line_Some _ _ _ _ Hl).
    set (rest := optional_line info "remaining" _ ++ _).
    exists ["GitHub API returned status " +:+ str_of_int status_code +:+ " for " +:+ url;
            ""; "[bold]Rate Limit Information:[/bold]"], (rest ++ tips).
    apply (f_equal (join newline)). simpl. by rewrite <- ?app_assoc.
  - intros raw n Hraw Hn. rewrite Hraw, Hn in Hs.
    rewrite rate_limit_section_ok in Hsec;
      [|intros ->; by rewrite lookup_empty in Hs|done].
    injection Hsec as <-. rewrite (optional_line_Some _ _ _ _ Hs).
    set (o1 := optional_line info "limit" _).
    set (o2 := optional_line info "remaining" _).
    set (o3 := optional_line info "reset_local" _).
    exists (["GitHub API returned status " +:+ str_of_int status_code +:+ " for " +:+ url;
             ""; "[bold]Rate Limit Information:[/bold]"] ++ o1 ++ o2 ++ o3),
      ([""] ++ tips).
    apply (f_equal (join newline)). simpl. by rewrite <- ?app_assoc.
Qed.

(** X18: header names are matched without regard to case: spelling the
    names of the header fields in another case changes neither the
    parsed result nor the diagnostic. *)
Theorem header_names_ignore_case (f : string -> string) (headers : Headers) :
  (forall n, lower (f n) = lower n) ->
  _parse_rate_limit_headers localtime (rename f headers)
  = _parse_rate_limit_headers localtime headers
  /\ forall status_code url,
       _format_rate_limit_error localtime status_code (rename f headers) url
       = _format_rate_limit_error localtime status_code headers url.
Proof.
  intros Hf.
  assert (Hparse : _parse_rate_limit_headers localtime (rename f headers)
                   = _parse_rate_limit_headers localtime headers).
  { unfold _parse_rate_limit_headers, parse_field, parse_reset, parse_retry_after.
    by rewrite !contains_rename, !get_rename. }
  split; [done|]. intros. unfold _format_rate_limit_error. by rewrite Hparse.
Qed.

End RateLimitMore.

(** ** The further properties at concrete inputs *)

Lemma transition_updates_known_step_witness :
  let st := snd (add "extract" "Extract"
                   (snd (add "fetch" "Fetch template" (fresh_with counting 0%nat)))) in
  steps (self (snd (run_call (Complete "extract" "") (snd (run_call (Start "extract" "unzip") st)))))
  = [{| key := "fetch"; label := "Fetch template"; status := "pending"; detail := "" |};
     {| key := "extract"; label := "Extract"; status := "done"; detail := "unzip" |}].
Proof.
  intros st.
  rewrite (transition_updates_known_step (Complete "extract" "")
             (snd (run_call (Start "extract" "unzip") st)) 1
             {| key := "extract"; label := "Extract"; status := "running";
                detail := "unzip" |}).
  - reflexivity.
  - reflexivity.
  - reflexivity.
  - reflexivity.
  - intros [|j] y Hj; [|lia]. intros [= <-]. discriminate.
Defined.

Lemma call_leaves_other_keys_witness :
  let st := snd (add "extract" "Extract"
                   (snd (add "fetch" "Fetch template" (fresh_with counting 0%nat)))) in
  steps (self (snd (run_call (Error "extract" "bad zip") st))) !! 0%nat
  = Some {| key := "fetch"; label := "Fetch template"; status := "pending"; detail := "" |}.
Proof.
  intros st. apply (call_leaves_other_keys (Error "extract" "bad zip") st 0).
  - reflexivity.
  - discriminate.
Defined.

Lemma calls_on_distinct_keys_commute_witness :
  let st := snd (add "fetch" "Fetch template" (fresh_with counting 0%nat)) in
  steps (self (snd (run_call (Start "fetch" "") (snd (run_call (Skip "extract" "n/a") st)))))
  = steps (self (snd (run_call (Skip "extract" "n/a") (snd (run_call (Start "fetch" "") st))))).
Proof.
  intros st. apply (calls_on_distinct_keys_commute (Start "fetch" "") (Skip "extract" "n/a") st).
  - discriminate.
  - left. vm_compute. constructor.
Defined.

Lemma first_call_decides_label_witness :
  let st := fresh_with counting 0%nat in
  label <$> steps (self (snd (run_call (Start "fetch" "go")
                                (snd (add "fetch" "Fetch template" st)))))
  = ["Fetch template"]
  /\ label <$> steps (self (snd (add "fetch" "Fetch template"
                                   (snd (run_call (Start "fetch" "go") st)))))
     = ["fetch"].
Proof.
  intros st.
  destruct (first_call_decides_label (Start "fetch" "go") "Fetch template" st)
    as [H1 H2].
  - reflexivity.
  - vm_compute. apply not_elem_of_nil.
  - split; [exact (f_equal (fmap label) H1)|exact (f_equal (fmap label) H2)].
Defined.

Lemma statuses_are_known_witness :
  let st := run_action (Call (Skip "extract" "n/a"))
              (run_action (Call (Add "fetch" "Fetch template"))
                 (fresh_with counting 0%nat)) in
  Forall (fun s => status s ∈ known_statuses
                   /\ is_Some (status_order (self st) !! status s)
                   /\ symbol (status s) <> " ")
    (steps (self st)).
Proof.
  intros st. apply (statuses_are_known st).
  subst st. do 2 apply reachable_step.
  apply (reachable_step (AttachRefresh (Some counting))).
  apply reachable_init.
Defined.

Lemma transition_always_refreshes_witness :
  let st := snd (start "fetch" "" (fresh_with counting 0%nat)) in
  world st = 1%nat
  /\ steps (self (snd (start "fetch" "" st))) = steps (self st)
  /\ world (snd (start "fetch" "" st)) = 2%nat.
Proof.
  intros st. split; [reflexivity|]. split; [reflexivity|].
  change (start "fetch" "" st) with (run_call (Start "fetch" "") st).
  rewrite (proj2 (transition_always_refreshes (Start "fetch" "") counting st
                    eq_refl eq_refl)).
  reflexivity.
Defined.

Lemma reset_fields_go_together_witness :
  exists e,
    int_of (get [("X-RateLimit-Reset", "2000000000")] "X-RateLimit-Reset" (Some "0"))
    = Return e
    /\ e = 2000000000.
Proof.
  destruct (reset_fields_go_together utc_zone [("X-RateLimit-Reset", "2000000000")]
              (<[ "reset_local" :=
                    VDatetime {| timestamp := 2000000000; utcoffset := 0; tzname := "UTC" |} ]>
                 (<[ "reset_time" :=
                       VDatetime {| timestamp := 2000000000; utcoffset := 0;
                                    tzname := "UTC" |} ]>
                    (<[ "reset_epoch" := VInt 2000000000 ]> ∅))))
    as [Hnone|(e & Hint & _ & Hepoch & _)].
  - reflexivity.
  - exfalso.
    assert (H : "reset_epoch" ∈ reset_fields) by (by repeat constructor).
    apply Hnone in H. vm_compute in H. discriminate H.
  - exists e. split; [exact Hint|]. vm_compute in Hepoch. by injection Hepoch as <-.
Defined.

Lemma retry_after_fields_exclude_witness :
  (exists n, int " 030 " = Return n
             /\ ({[ "retry_after_seconds" := VInt 30 ]} : gmap string value)
                  !! "retry_after_seconds" = Some (VInt n)
             /\ ({[ "retry_after_seconds" := VInt 30 ]} : gmap string value)
                  !! "retry_after" = None)
  \/ (int " 030 " = Raise ValueError
      /\ ({[ "retry_after_seconds" := VInt 30 ]} : gmap string value)
           !! "retry_after_seconds" = None
      /\ ({[ "retry_after_seconds" := VInt 30 ]} : gmap string value)
           !! "retry_after" = Some (VStr " 030 ")).
Proof.
  exact (retry_after_fields_exclude utc_zone [("retry-after", " 030 ")]
           {[ "retry_after_seconds" := VInt 30 ]} eq_refl).
Defined.

Lemma raw_retry_after_is_not_shown_witness :
  _format_rate_limit_error utc_zone 429
    [("Retry-After", "Wed, 21 Oct 2015 07:28:00 GMT")] "https://api.github.com/x"
  = Return (join newline
              (["GitHub API returned status 429 for https://api.github.com/x";
                "";
                "[bold]Rate Limit Information:[/bold]";
                ""] ++ tips)).
Proof.
  apply (raw_retry_after_is_not_shown utc_zone 429
           [("Retry-After", "Wed, 21 Oct 2015 07:28:00 GMT")]
           "https://api.github.com/x" "Wed, 21 Oct 2015 07:28:00 GMT");
    reflexivity.
Defined.

Lemma limit_and_retry_lines_witness :
  match _format_rate_limit_error utc_zone 429
          [("x-ratelimit-limit", "60"); ("retry-after", " 030 ")]
          "https://api.github.com/x" with
  | Return msg =>
      line_of "  • Rate Limit: 60 requests/hour" msg
      /\ line_of "  • Retry after: 30 seconds" msg
  | Raise _ => False
  end.
Proof.
  destruct (_format_rate_limit_error utc_zone 429
              [("x-ratelimit-limit", "60"); ("retry-after", " 030 ")]
              "https://api.github.com/x") as [msg|x] eqn:E.
  - destruct (limit_and_retry_lines utc_zone 429 _ _ msg E) as [H1 H2].
    split; [exact (H1 "60" eq_refl)|exact (H2 " 030 " 30 eq_refl eq_refl)].
  - vm_compute in E. discriminate E.
Defined.

Lemma header_names_ignore_case_witness :
  _parse_rate_limit_headers utc_zone
    (rename lower [("X-RateLimit-Limit", "60"); ("Retry-After", "30")])
  = _parse_rate_limit_headers utc_zone [("X-RateLimit-Limit", "60"); ("Retry-After", "30")].
Proof.
  apply (header_names_ignore_case utc_zone lower
           [("X-RateLimit-Limit", "60"); ("Retry-After", "30")]).
  apply lower_idempotent.
Defined.
